(** * seq: generic slice helpers (Go package [github.com/banky/seq])

    A shallow embedding of [seq.go] together with the properties its
    documentation states.

    Conventions of the embedding.
    - A Go slice [[]T] is a [list T]; a [nil] slice and an empty slice are
      both [[]] (they are indistinguishable through [len], [range] and
      [append], which is all this package uses).
    - Go's [int] is the 64-bit two's-complement integer: a [Z] in
      [[int_min, int_max]], with [wrap] applied after every addition.
    - A call that can panic returns a [Res]: [Ok v] or [Panic msg].
    - A [for] loop driven by an index variable is run with fuel; [None]
      means the fuel ran out before the loop was left.
    - [for _, v := range slice] is a left fold over the list.
    - [comparable] element types are types with decidable equality whose
      [==] is equality of values (so not floats, because of [NaN]); the
      [map[T]struct{}] of [Unique] is a finite set [gset T], for which the
      keys are also countable. *)

From stdpp Require Import base list strings gmap.
From Stdlib Require Import ZArith Lia.

Open Scope Z_scope.

(** ** Results of calls that may panic *)

Inductive Res (A : Type) : Type :=
| Ok (a : A)
| Panic (msg : string).
Arguments Ok {A} a.
Arguments Panic {A} msg.

Definition bind {A B : Type} (r : Res A) (k : A → Res B) : Res B :=
  match r with
  | Ok a => k a
  | Panic msg => Panic msg
  end.

Notation "x ←! r ; k" := (bind r (fun x => k))
  (at level 20, r at level 100, k at level 200, right associativity,
   format "x  ←!  r ;  '/' k").

(** ** Go's [int] *)

Module GoInt.

Definition int_min : Z := - 2 ^ 63.
Definition int_max : Z := 2 ^ 63 - 1.

(** Two's-complement wrap-around of a mathematical integer into [int]. *)
Definition wrap (z : Z) : Z := (z + 2 ^ 63) mod 2 ^ 64 - 2 ^ 63.

Definition in_range (z : Z) : Prop := int_min ≤ z ≤ int_max.

(** [a + b] on [int]. *)
Definition add (a b : Z) : Z := wrap (a + b).

(** [len(slice)]. *)
Definition len {T : Type} (slice : list T) : Z := Z.of_nat (length slice).

(** The length of a Go slice is an [int]. *)
Definition slice_ok {T : Type} (slice : list T) : Prop := len slice ≤ int_max.

End GoInt.
Import GoInt.

(** ** Filter, Map, Reduce, Partition, Flatten *)

Section Folds.
Context {T R : Type}.

(** [Filter]: [out] starts empty and receives every kept element. *)
Definition Filter (slice : list T) (keep : T → bool) : list T :=
  foldl (fun out v => if keep v then out ++ [v] else out) [] slice.

Definition Map (slice : list T) (f : T → R) : list R :=
  foldl (fun out v => out ++ [f v]) [] slice.

Definition Reduce (slice : list T) (init : R) (f : R → T → R) : R :=
  foldl (fun acc v => f acc v) init slice.

(** [Partition]: the two named results are the loop state. *)
Definition Partition (slice : list T) (pred : T → bool) : list T * list T :=
  foldl (fun '(matches, nonMatches) v =>
           if pred v then (matches ++ [v], nonMatches)
           else (matches, nonMatches ++ [v]))
        ([], []) slice.

Definition Flatten (slices : list (list T)) : list T :=
  foldl (fun out inner => out ++ inner) [] slices.
End Folds.

(** ** Reduce with an observable callback

    A Go callback may have effects, so the number and the order of its
    invocations are observable.  [Logged E A] is a computation that appends
    events of type [E] to a log; [Reduce_logged] is the loop of [Reduce]
    run with such a callback, and [observe f] is the pure function [f]
    instrumented to record the arguments of every invocation. *)

Definition Logged (E A : Type) : Type := list E → A * list E.

Definition lret {E A} (a : A) : Logged E A := fun log => (a, log).

Definition lbind {E A B} (m : Logged E A) (k : A → Logged E B) : Logged E B :=
  fun log => let '(a, log') := m log in k a log'.

Section ReduceLogged.
Context {T R E : Type}.

Fixpoint Reduce_loop (f : R → T → Logged E R) (slice : list T) (acc : R)
  : Logged E R :=
  match slice with
  | [] => lret acc
  | v :: rest => lbind (f acc v) (fun acc' => Reduce_loop f rest acc')
  end.

Definition Reduce_logged (slice : list T) (init : R) (f : R → T → Logged E R)
  : Logged E R :=
  Reduce_loop f slice init.
End ReduceLogged.

Definition observe {T R} (f : R → T → R) : R → T → Logged (R * T) R :=
  fun acc v log => (f acc v, log ++ [(acc, v)]).

(** The left fold as the specification writes it,
    [f(...f(f(init, s[0]), s[1])..., s[n-1])]: the outermost application is
    the one to the last element. *)
Fixpoint nested_fold {T R} (f : R → T → R) (init : R) (s : list T) (n : nat) : R :=
  match n with
  | O => init
  | S k =>
    match s !! k with
    | Some x => f (nested_fold f init s k) x
    | None => nested_fold f init s k
    end
  end.

(** ** LastIndex *)

Section LastIndex.
Context {T : Type} `{EqDecision T}.

(** [slice[i]] with Go's bounds check. *)
Definition index (slice : list T) (i : Z) : Res T :=
  if bool_decide (0 ≤ i < len slice) then
    match slice !! Z.to_nat i with
    | Some x => Ok x
    | None => Panic "index out of range"
    end
  else Panic "index out of range".

(** [for i := ...; i >= 0; i-- { ... }] from the current value of [i]. *)
Fixpoint LastIndex_loop (fuel : nat) (slice : list T) (v : T) (i : Z)
  : option (Res (Z * bool)) :=
  match fuel with
  | O => None
  | S fuel' =>
    if bool_decide (0 ≤ i) then
      match index slice i with
      | Panic msg => Some (Panic msg)
      | Ok x =>
        if bool_decide (x = v) then Some (Ok (i, true))
        else LastIndex_loop fuel' slice v (add i (-1))
      end
    else Some (Ok (-1, false))
  end.

(** The loop runs at most [len(slice)] times and then tests its condition
    once more. *)
Definition LastIndex (slice : list T) (v : T) : option (Res (Z * bool)) :=
  LastIndex_loop (S (length slice)) slice v (add (len slice) (-1)).
End LastIndex.

(** ** Unique *)

Section Unique.
Context {T : Type} `{Countable T}.

(** One iteration of the loop; the state is [(unique, seen)]. *)
Definition Unique_step (st : list T * gset T) (item : T) : list T * gset T :=
  let '(unique, seen) := st in
  if bool_decide (item ∈ seen) then (unique, seen)
  else (unique ++ [item], {[item]} ∪ seen).

Definition Unique (slice : list T) : list T :=
  (foldl Unique_step ([], ∅) slice).1.

(** What the documentation promises, stated on positions: the element at
    index [i] is kept exactly when it does not occur at a smaller index. *)
Definition first_occurrences (s : list T) : list T :=
  omap (fun i => x ← s !! i;
                 if bool_decide (x ∈ take i s) then None else Some x)
       (seq 0 (length s)).
End Unique.

(** ** UniqueBy and GroupBy *)

Section Keyed.
Context {T K : Type} `{Countable K}.

Definition UniqueBy_step (keyFunc : T → K) (st : list T * gset K) (item : T)
  : list T * gset K :=
  let '(unique, seen) := st in
  let k := keyFunc item in
  if bool_decide (k ∈ seen) then (unique, seen)
  else (unique ++ [item], {[k]} ∪ seen).

Definition UniqueBy (slice : list T) (keyFunc : T → K) : list T :=
  (foldl (UniqueBy_step keyFunc) ([], ∅) slice).1.

(** [out[k]] of a missing key is the [nil] slice. *)
Definition GroupBy (slice : list T) (keyFunc : T → K) : gmap K (list T) :=
  foldl (fun out v =>
           let k := keyFunc v in
           <[k := default [] (out !! k) ++ [v]]> out)
        ∅ slice.
End Keyed.

(** ** Chunk *)

Section Chunk.
Context {T : Type}.

(** The slice expression [slice[lo:hi]] with its bounds check.  The
    capacity of the slice is taken to be its length; [Chunk] never asks
    for more than [len(slice)]. *)
Definition slice_expr (slice : list T) (lo hi : Z) : Res (list T) :=
  if bool_decide (0 ≤ lo ∧ lo ≤ hi ∧ hi ≤ len slice) then
    Ok (take (Z.to_nat (hi - lo)) (drop (Z.to_nat lo) slice))
  else Panic "slice bounds out of range".

(** [for ...; i < len(slice); i += size { ... }] from the current values
    of [i] and [chunks]. *)
Fixpoint Chunk_loop (fuel : nat) (slice : list T) (size i : Z)
    (chunks : list (list T)) : option (Res (list (list T))) :=
  match fuel with
  | O => None
  | S fuel' =>
    if bool_decide (i < len slice) then
      let end_ := Z.min (add i size) (len slice) in
      match slice_expr slice i end_ with
      | Panic msg => Some (Panic msg)
      | Ok c => Chunk_loop fuel' slice size (add i size) (chunks ++ [c])
      end
    else Some (Ok chunks)
  end.

Definition Chunk (fuel : nat) (slice : list T) (size : Z)
  : option (Res (list (list T))) :=
  Chunk_loop fuel slice size 0 [].

(** [Chunk] returns [r] when some amount of fuel suffices; it diverges
    when none does. *)
Definition Chunk_returns (slice : list T) (size : Z) (r : Res (list (list T)))
  : Prop :=
  ∃ fuel, Chunk fuel slice size = Some r.

Definition Chunk_diverges (slice : list T) (size : Z) : Prop :=
  ∀ fuel, Chunk fuel slice size = None.

(** [chunked n s cs]: [cs] cuts [s] into consecutive pieces of length [n],
    the last of which may be shorter but is not empty. *)
Inductive chunked (n : Z) : list T → list (list T) → Prop :=
| chunked_nil : chunked n [] []
| chunked_last c : c ≠ [] → len c ≤ n → chunked n c [c]
| chunked_cons c rest cs :
    len c = n → rest ≠ [] → chunked n rest cs → chunked n (c ++ rest) (c :: cs).
End Chunk.

(** ** MinMax and MinMaxFunc *)

(** [cmp.Ordered] without the floating-point types: a strict total order
    with a decidable [<].  (With floats, [NaN] makes the order partial.) *)
Class Ordered (T : Type) := {
  lt : T → T → bool;
  lt_irrefl : ∀ x, lt x x = false;
  lt_trans : ∀ x y z, lt x y = true → lt y z = true → lt x z = true;
  lt_total : ∀ x y, lt x y = false → lt y x = false → x = y
}.

Definition le {T} `{Ordered T} (x y : T) : Prop := lt y x = false.

(** The built-in functions [min] and [max] on an ordered, non-float type. *)
Definition go_min {T} `{Ordered T} (x y : T) : T := if lt y x then y else x.
Definition go_max {T} `{Ordered T} (x y : T) : T := if lt x y then y else x.

(** The four functions of Go's standard package [slices] that [MinMax] and
    [MinMaxFunc] call.  They belong to the Go distribution, not to this
    repository; the definitions follow the standard library (go1.21):
    each panics on an empty slice ([if len(x) < 1 { panic(...) }]), and
    otherwise starts from [m := x[0]] and scans [x[1:]] from left to
    right, with [m = min(m, x[i])], [m = max(m, x[i])],
    [if cmp(x[i], m) < 0 { m = x[i] }] and
    [if cmp(x[i], m) > 0 { m = x[i] }] as loop bodies.  The library
    documents the consequence: of several minimal (maximal) elements
    [MinFunc] ([MaxFunc]) returns the first one. *)
Module slices.
Section Slices.
Context {E : Type}.

Definition Min `{Ordered E} (x : list E) : Res E :=
  match x with
  | [] => Panic "slices.Min: empty list"
  | x0 :: rest => Ok (foldl (fun m xi => go_min m xi) x0 rest)
  end.

Definition Max `{Ordered E} (x : list E) : Res E :=
  match x with
  | [] => Panic "slices.Max: empty list"
  | x0 :: rest => Ok (foldl (fun m xi => go_max m xi) x0 rest)
  end.

Definition MinFunc (x : list E) (cmp : E → E → Z) : Res E :=
  match x with
  | [] => Panic "slices.MinFunc: empty list"
  | x0 :: rest =>
    Ok (foldl (fun m xi => if bool_decide (cmp xi m < 0) then xi else m) x0 rest)
  end.

Definition MaxFunc (x : list E) (cmp : E → E → Z) : Res E :=
  match x with
  | [] => Panic "slices.MaxFunc: empty list"
  | x0 :: rest =>
    Ok (foldl (fun m xi => if bool_decide (0 < cmp xi m) then xi else m) x0 rest)
  end.
End Slices.
End slices.

(** The operands of [return a, b] are evaluated from left to right. *)
Definition MinMax {T} `{Ordered T} (slice : list T) : Res (T * T) :=
  min ←! slices.Min slice;
  max ←! slices.Max slice;
  Ok (min, max).

Definition MinMaxFunc {T} (slice : list T) (less : T → T → Z) : Res (T * T) :=
  min ←! slices.MinFunc slice less;
  max ←! slices.MaxFunc slice less;
  Ok (min, max).

(** The helper [compare] of [seq_test.go], which stands for [cmp.Compare]
    on integers. *)
Definition compare (a b : Z) : Z :=
  if bool_decide (a < b) then -1
  else if bool_decide (a > b) then 1
  else 0.

(** [cmp.Compare] of Go's standard library on an ordered, non-float type:
    [-1] if [x < y], [+1] if [x > y], [0] otherwise.  The documentation of
    [MinMaxFunc] uses it to build comparison functions. *)
Definition cmp_Compare {T} `{Ordered T} (x y : T) : Z :=
  if lt x y then -1 else if lt y x then 1 else 0.

(** The contract of the comparison function of [MinMaxFunc]: negative for
    [a < b], zero for [a == b], positive for [a > b].  Swapping the
    arguments swaps the sign, and "not greater" is transitive. *)
Record comparator {T} (less : T → T → Z) : Prop := {
  cmp_flip : ∀ a b, less a b < 0 ↔ 0 < less b a;
  cmp_trans : ∀ a b c, less a b ≤ 0 → less b c ≤ 0 → less a c ≤ 0
}.

(** [m] is a minimum (a maximum) of [s] under [less]; several elements of
    [s] may be, and then they tie. *)
Definition minimal {T} (less : T → T → Z) (s : list T) (m : T) : Prop :=
  ∀ e, e ∈ s → less m e ≤ 0.

Definition maximal {T} (less : T → T → Z) (s : list T) (m : T) : Prop :=
  ∀ e, e ∈ s → less e m ≤ 0.

(** [i] is the first index of [s] whose element satisfies [P]. *)
Definition first_index {T} (P : T → Prop) (s : list T) (i : nat) : Prop :=
  (∃ x, s !! i = Some x ∧ P x)
  ∧ ∀ k e, (k < i)%nat → s !! k = Some e → ¬ P e.

(** [int] is ordered. *)
#[export] Program Instance Z_Ordered : Ordered Z := {| lt := Z.ltb |}.
Next Obligation. intros x. apply Z.ltb_irrefl. Qed.
Next Obligation. intros x y z. rewrite !Z.ltb_lt. lia. Qed.
Next Obligation. intros x y. rewrite !Z.ltb_ge. lia. Qed.

(** * The examples of [seq_test.go] *)

Example ExampleFilter : Filter [1; 2; 3; 4; 5; 6] Z.even = [2; 4; 6].
Proof. reflexivity. Qed.

Example ExampleMap : Map [1; 2; 3] (fun n => n + 100) = [101; 102; 103].
Proof. reflexivity. Qed.

Example ExampleReduce : Reduce [1; 2; 3; 4] 0 (fun acc n => add acc n) = 10.
Proof. reflexivity. Qed.

Example ExampleLastIndex :
  LastIndex ["a"; "b"; "c"; "b"]%string "b"%string = Some (Ok (3, true))
  ∧ LastIndex ["a"; "b"; "c"; "b"]%string "z"%string = Some (Ok (-1, false)).
Proof. split; vm_compute; reflexivity. Qed.

Example ExamplePartition :
  Partition [1; 2; 3; 4; 5; 6] Z.even = ([2; 4; 6], [1; 3; 5]).
Proof. reflexivity. Qed.

Example ExampleFlatten : Flatten [[1; 2]; []; [3]; [4; 5]] = [1; 2; 3; 4; 5].
Proof. reflexivity. Qed.

Example ExampleUnique : Unique [1; 2; 1; 3; 2; 4; 4] = [1; 2; 3; 4].
Proof. vm_compute. reflexivity. Qed.

Example ExampleUniqueBy :
  UniqueBy [("Alice", "a@example.com"); ("Bob", "b@example.com");
            ("Alice Clone", "a@example.com")]%string snd
  = [("Alice", "a@example.com"); ("Bob", "b@example.com")]%string.
Proof. vm_compute. reflexivity. Qed.

Example ExampleGroupBy :
  let byLen := GroupBy ["a"; "bb"; "ccc"; "dd"; "e"]%string String.length in
  byLen !! 1%nat = Some ["a"; "e"]%string
  ∧ byLen !! 2%nat = Some ["bb"; "dd"]%string
  ∧ byLen !! 3%nat = Some ["ccc"]%string.
Proof. vm_compute. done. Qed.

Example ExampleChunk :
  Chunk 4 [1; 2; 3; 4; 5] 2 = Some (Ok [[1; 2]; [3; 4]; [5]]).
Proof. vm_compute. reflexivity. Qed.

Example ExampleMinMax : MinMax [5; 2; 9; 1] = Ok (1, 9).
Proof. reflexivity. Qed.

Example ExampleMinMaxFunc :
  MinMaxFunc [("Alice", 30); ("Bob", 25); ("Charlie", 40)]%string
             (fun a b => compare a.2 b.2)
  = Ok (("Bob", 25), ("Charlie", 40))%string.
Proof. reflexivity. Qed.

(** With ties at both ends the leftmost tied element is returned. *)
Example MinMaxFunc_ties :
  MinMaxFunc [("a", 30); ("b", 25); ("c", 40); ("d", 25); ("e", 40)]%string
             (fun a b => compare a.2 b.2)
  = Ok (("b", 25), ("c", 40))%string.
Proof. reflexivity. Qed.

(** * Properties *)

(** ** Arithmetic on [int] *)

Lemma wrap_id z : in_range z → wrap z = z.
Proof.
  unfold in_range, wrap, int_min, int_max. intros Hz.
  rewrite Z.mod_small; lia.
Qed.

Lemma wrap_overflow z : int_max < z ≤ 2 * int_max + 1 → wrap z = z - 2 ^ 64.
Proof.
  unfold wrap, int_max. intros Hz.
  replace (z + 2 ^ 63) with ((z - 2 ^ 63) + 1 * 2 ^ 64) by lia.
  rewrite Z.mod_add by lia. rewrite Z.mod_small; lia.
Qed.

Lemma add_id a b : in_range (a + b) → add a b = a + b.
Proof. apply wrap_id. Qed.

Lemma len_nonneg {T} (s : list T) : 0 ≤ len s.
Proof. unfold len. lia. Qed.

(** ** Filter and Partition *)

Lemma Filter_acc {T} (keep : T → bool) (s out : list T) :
  foldl (fun out v => if keep v then out ++ [v] else out) out s
  = out ++ Filter s keep.
Proof.
  unfold Filter. revert out.
  induction s as [|v s IH] using rev_ind; intros out.
  - simpl. by rewrite app_nil_r.
  - rewrite !foldl_app. simpl. rewrite IH.
    destruct (keep v); [by rewrite app_assoc | done].
Qed.

(** [Filter] is the usual filter of a list. *)
Lemma Filter_spec {T} (keep : T → bool) (s : list T) :
  Filter s keep = List.filter keep s.
Proof.
  induction s as [|v s IH]; [done |].
  unfold Filter. cbn [foldl List.filter].
  destruct (keep v).
  - rewrite Filter_acc. simpl. by rewrite IH.
  - exact IH.
Qed.

Lemma Partition_acc {T} (pred : T → bool) (s m n : list T) :
  foldl (fun '(matches, nonMatches) v =>
           if pred v then (matches ++ [v], nonMatches)
           else (matches, nonMatches ++ [v])) (m, n) s
  = (m ++ Filter s pred, n ++ Filter s (fun v => negb (pred v))).
Proof.
  revert m n. induction s as [|v s IH]; intros m n.
  - simpl. unfold Filter. simpl. by rewrite !app_nil_r.
  - cbn [foldl]. unfold Filter at 1 2. cbn [foldl].
    destruct (pred v); simpl; rewrite IH, !Filter_acc; simpl;
      by rewrite <- ?app_assoc.
Qed.

(** C5. The two results of [Partition(s, p)] are [Filter(s, p)] and
    [Filter(s, not p)]. *)
Theorem Partition_is_two_filters {T} (s : list T) (p : T → bool) :
  Partition s p = (Filter s p, Filter s (fun v => negb (p v))).
Proof. unfold Partition. by rewrite Partition_acc. Qed.

(** ** Map and Flatten *)

Lemma Map_spec {T R} (f : T → R) (s : list T) : Map s f = f <$> s.
Proof.
  unfold Map. induction s as [|v s IH] using rev_ind; [done |].
  by rewrite foldl_app, fmap_app, IH.
Qed.

Lemma Flatten_spec {T} (ss : list (list T)) : Flatten ss = concat ss.
Proof.
  unfold Flatten. induction ss as [|inner ss IH] using rev_ind; [done |].
  rewrite foldl_app, concat_app, IH. simpl. by rewrite app_nil_r.
Qed.

(** ** Reduce *)

Lemma Reduce_snoc {T R} (f : R → T → R) (s : list T) (x : T) (init : R) :
  Reduce (s ++ [x]) init f = f (Reduce s init f) x.
Proof. unfold Reduce. by rewrite foldl_app. Qed.

Lemma nested_fold_take {T R} (f : R → T → R) (init : R) (s : list T) (n : nat) :
  (n ≤ length s)%nat → nested_fold f init s n = Reduce (take n s) init f.
Proof.
  induction n as [|k IH]; intros Hn.
  - by rewrite take_0.
  - destruct (lookup_lt_is_Some_2 s k) as [x Hx]; [lia |].
    cbn [nested_fold]. rewrite Hx, (take_S_r _ _ _ Hx), Reduce_snoc, IH; [done | lia].
Qed.

Lemma Reduce_loop_observe {T R} (f : R → T → R) (s : list T) (acc : R) log :
  Reduce_loop (observe f) s acc log
  = (Reduce s acc f, log ++ imap (fun i v => (Reduce (take i s) acc f, v)) s).
Proof.
  revert acc log. induction s as [|x s IH]; intros acc log.
  - simpl. unfold lret. by rewrite app_nil_r.
  - cbn [Reduce_loop]. unfold lbind, observe at 1.
    rewrite IH. cbn [imap]. rewrite <- app_assoc. done.
Qed.

(** C4. [Reduce(s, init, f)] is the left fold
    [f(...f(f(init, s[0]), s[1])..., s[n-1])]; on the empty sequence it is
    [init]; and [f] is invoked once per element, from left to right: the
    i-th invocation receives the fold of the first [i] elements and [s[i]],
    so the elements passed to [f] are, in order, exactly [s]. *)
Theorem Reduce_left_fold {T R} (s : list T) (init : R) (f : R → T → R) :
  Reduce s init f = nested_fold f init s (length s)
  ∧ Reduce (@nil T) init f = init
  ∧ Reduce_logged s init (observe f) []
    = (Reduce s init f, imap (fun i v => (Reduce (take i s) init f, v)) s)
  ∧ (Reduce_logged s init (observe f) []).2.*2 = s.
Proof.
  assert (Hlog : Reduce_logged s init (observe f) []
    = (Reduce s init f, imap (fun i v => (Reduce (take i s) init f, v)) s)).
  { unfold Reduce_logged. by rewrite Reduce_loop_observe. }
  split_and!.
  - rewrite nested_fold_take by done. by rewrite firstn_all.
  - done.
  - exact Hlog.
  - rewrite Hlog. cbn [snd]. rewrite fmap_imap.
    clear Hlog. generalize (fun i : nat => Reduce (take i s) init f).
    induction s as [|x s IH]; intros g; [done |].
    cbn [imap]. f_equal. apply (IH (g ∘ S)).
Qed.

(** ** LastIndex *)

Section LastIndexProps.
Context {T : Type} `{EqDecision T}.

Lemma index_lookup (s : list T) (k : nat) (x : T) :
  s !! k = Some x → index s (Z.of_nat k) = Ok x.
Proof.
  intros Hx. unfold index, len.
  pose proof (lookup_lt_Some _ _ _ Hx).
  rewrite bool_decide_eq_true_2 by lia.
  by rewrite Nat2Z.id, Hx.
Qed.

(** Invariant of the loop: the indices at or above [k] have been visited and
    none of them holds [v]; [i = k - 1] is the next index to visit. *)
Lemma LastIndex_loop_spec (s : list T) (v : T) (k fuel : nat) :
  slice_ok s →
  (k ≤ length s)%nat →
  (k < fuel)%nat →
  (∀ j, (k ≤ j)%nat → s !! j ≠ Some v) →
  (∃ i : nat, s !! i = Some v ∧ (∀ j, (i < j)%nat → s !! j ≠ Some v)
      ∧ LastIndex_loop fuel s v (Z.of_nat k - 1) = Some (Ok (Z.of_nat i, true)))
  ∨ ((v ∉ s) ∧ LastIndex_loop fuel s v (Z.of_nat k - 1) = Some (Ok (-1, false))).
Proof.
  intros Hok. revert fuel.
  induction k as [|k IH]; intros fuel Hk Hfuel Hnot;
    (destruct fuel as [|fuel]; [lia |]); cbn [LastIndex_loop].
  - right. rewrite bool_decide_eq_false_2 by lia. split; [| done].
    intros [j Hj]%list_elem_of_lookup. apply (Hnot j); [lia | done].
  - replace (Z.of_nat (S k) - 1) with (Z.of_nat k) by lia.
    rewrite bool_decide_eq_true_2 by lia.
    destruct (lookup_lt_is_Some_2 s k) as [x Hx]; [lia |].
    rewrite (index_lookup _ _ _ Hx).
    case_bool_decide as Hxv.
    + left. exists k. subst x. split_and!; [done | | done].
      intros j Hj. apply Hnot. lia.
    + assert (Hadd : add (Z.of_nat k) (-1) = Z.of_nat k - 1).
      { apply add_id. unfold slice_ok, len, in_range, int_min, int_max in *. lia. }
      rewrite Hadd. apply IH; [lia | lia |].
      intros j Hj. destruct (decide (j = k)) as [-> | Hne].
      * rewrite Hx. congruence.
      * apply Hnot. lia.
Qed.

End LastIndexProps.

(** C7. [LastIndex(s, v)] returns the highest index holding [v] and [true];
    when no element equals [v] (in particular when [s] is empty) it returns
    [-1] and [false]. *)
Theorem LastIndex_spec {T} `{EqDecision T} (s : list T) (v : T) :
  slice_ok s →
  (∃ i : nat, s !! i = Some v ∧ (∀ j, (i < j)%nat → s !! j ≠ Some v)
      ∧ LastIndex s v = Some (Ok (Z.of_nat i, true)))
  ∨ ((v ∉ s) ∧ LastIndex s v = Some (Ok (-1, false))).
Proof.
  intros Hok. unfold LastIndex.
  assert (Hadd : add (len s) (-1) = Z.of_nat (length s) - 1).
  { apply add_id. unfold slice_ok, len, in_range, int_min, int_max in *. lia. }
  rewrite Hadd. apply LastIndex_loop_spec; [done | lia | lia |].
  intros j Hj. rewrite lookup_ge_None_2 by lia. done.
Qed.

Lemma LastIndex_spec_witness :
  (∃ i : nat, [7; 8; 7; 9] !! i = Some 7
      ∧ (∀ j, (i < j)%nat → [7; 8; 7; 9] !! j ≠ Some 7)
      ∧ LastIndex [7; 8; 7; 9] 7 = Some (Ok (Z.of_nat i, true)))
  ∨ ((7 ∉ [7; 8; 7; 9]) ∧ LastIndex [7; 8; 7; 9] 7 = Some (Ok (-1, false))).
Proof. apply (LastIndex_spec [7; 8; 7; 9] 7). vm_compute. discriminate. Defined.

(** The empty sequence in particular. *)
Lemma LastIndex_nil {T} `{EqDecision T} (v : T) :
  LastIndex [] v = Some (Ok (-1, false)).
Proof. reflexivity. Qed.

(** ** Unique *)

Lemma omap_ext_elem {A B} (f g : A → option B) (l : list A) :
  (∀ x, x ∈ l → f x = g x) → omap f l = omap g l.
Proof.
  induction l as [|a l IH]; intros Hfg; [done |].
  cbn [omap list_omap]. rewrite (Hfg a) by left.
  rewrite IH; [done |]. intros x Hx. apply Hfg. by right.
Qed.

Section UniqueProps.
Context {T : Type} `{Countable T}.

Lemma first_occurrences_snoc (pre : list T) (x : T) :
  first_occurrences (pre ++ [x])
  = first_occurrences pre ++ (if bool_decide (x ∈ pre) then [] else [x]).
Proof.
  unfold first_occurrences.
  rewrite last_length, seq_S, omap_app. f_equal.
  - apply omap_ext_elem. intros i [_ Hi]%elem_of_seq. simpl in Hi.
    rewrite lookup_app_l by lia. by rewrite take_app_le by lia.
  - cbn [omap list_omap]. rewrite Nat.add_0_l.
    rewrite list_lookup_middle by done. cbn [mbind option_bind].
    rewrite take_app_length. by case_bool_decide.
Qed.

(** Invariant of the loop: after the prefix [pre], [unique] holds the first
    occurrences of [pre] and [seen] holds its values. *)
Lemma Unique_loop_spec (pre s : list T) :
  foldl Unique_step (first_occurrences pre, list_to_set pre) s
  = (first_occurrences (pre ++ s), list_to_set (pre ++ s)).
Proof.
  revert pre. induction s as [|x s IH]; intros pre.
  - by rewrite app_nil_r.
  - cbn [foldl]. unfold Unique_step at 2.
    replace (pre ++ x :: s) with ((pre ++ [x]) ++ s) by by rewrite <- app_assoc.
    rewrite <- IH, first_occurrences_snoc. f_equal.
    case_bool_decide as Hin; rewrite elem_of_list_to_set in Hin.
    + rewrite bool_decide_eq_true_2 by done. rewrite app_nil_r. f_equal.
      rewrite list_to_set_snoc_L, (comm_L (∪)). symmetry.
      apply subseteq_union_1_L, singleton_subseteq_l.
      by apply elem_of_list_to_set.
    + rewrite bool_decide_eq_false_2 by done. f_equal.
      by rewrite list_to_set_snoc_L, (comm_L (∪)).
Qed.

Lemma Unique_first_occurrences (s : list T) : Unique s = first_occurrences s.
Proof.
  unfold Unique.
  change (@nil T, (∅ : gset T))
    with (first_occurrences (@nil T), (list_to_set (@nil T) : gset T)).
  by rewrite Unique_loop_spec.
Qed.

Lemma first_occurrences_elem (s : list T) (x : T) :
  x ∈ first_occurrences s ↔ x ∈ s.
Proof.
  induction s as [|y s IH] using rev_ind; [done |].
  rewrite first_occurrences_snoc, !elem_of_app, IH.
  case_bool_decide as Hin; [| done].
  rewrite elem_of_nil, list_elem_of_singleton. intuition (subst; auto).
Qed.

Lemma first_occurrences_NoDup (s : list T) : NoDup (first_occurrences s).
Proof.
  induction s as [|y s IH] using rev_ind; [constructor |].
  rewrite first_occurrences_snoc. case_bool_decide as Hin.
  - by rewrite app_nil_r.
  - apply NoDup_app. split_and!; [done | | apply NoDup_singleton].
    intros x Hx ->%list_elem_of_singleton.
    apply Hin. by apply first_occurrences_elem.
Qed.

Lemma first_occurrences_sublist (s : list T) : first_occurrences s `sublist_of` s.
Proof.
  induction s as [|y s IH] using rev_ind; [done |].
  rewrite first_occurrences_snoc. case_bool_decide.
  - rewrite app_nil_r. by apply sublist_inserts_r.
  - by apply sublist_app.
Qed.

Lemma first_occurrences_id (l : list T) : NoDup l → first_occurrences l = l.
Proof.
  induction l as [|y l IH] using rev_ind; intros Hnd; [done |].
  apply NoDup_app in Hnd as (Hl & Hy & _).
  rewrite first_occurrences_snoc, IH by done.
  rewrite bool_decide_eq_false_2; [done |].
  intros Hin. apply (Hy y Hin). by apply list_elem_of_singleton.
Qed.

End UniqueProps.

(** C6. [Unique] is idempotent, and [Unique(s)] keeps exactly the first
    occurrence of each distinct value, in the order of first occurrence:
    it consists of the elements of [s] that do not occur at a smaller
    index, so it has no duplicates, has the same values as [s] and is a
    subsequence of [s]. *)
Theorem Unique_idempotent_first {T} `{Countable T} (s : list T) :
  Unique (Unique s) = Unique s
  ∧ Unique s = first_occurrences s
  ∧ NoDup (Unique s)
  ∧ (∀ x, x ∈ Unique s ↔ x ∈ s)
  ∧ Unique s `sublist_of` s.
Proof.
  rewrite !Unique_first_occurrences. split_and!.
  - apply first_occurrences_id, first_occurrences_NoDup.
  - done.
  - apply first_occurrences_NoDup.
  - apply first_occurrences_elem.
  - apply first_occurrences_sublist.
Qed.

(** ** MinMax and MinMaxFunc on the empty sequence *)

(** C2. On an empty sequence [MinMax] and [MinMaxFunc] panic; neither
    returns a value. *)
Theorem MinMax_empty_panics {T} `{Ordered T} {U} (less : U → U → Z) :
  MinMax (@nil T) = Panic "slices.Min: empty list"
  ∧ MinMaxFunc (@nil U) less = Panic "slices.MinFunc: empty list"
  ∧ (∀ v, MinMax (@nil T) ≠ Ok v)
  ∧ (∀ v, MinMaxFunc (@nil U) less ≠ Ok v).
Proof. split_and!; done. Qed.

(** ** MinMax *)

Section OrderedProps.
Context {T : Type} `{Ordered T}.

Lemma lt_asym (x y : T) : lt x y = true → lt y x = false.
Proof.
  intros Hxy. destruct (lt y x) eqn:Hyx; [| done].
  pose proof (lt_trans _ _ _ Hxy Hyx) as Hxx. by rewrite lt_irrefl in Hxx.
Qed.

Lemma le_refl (x : T) : le x x.
Proof. apply lt_irrefl. Qed.

Lemma le_trans (x y z : T) : le x y → le y z → le x z.
Proof.
  unfold le. intros Hxy Hyz.
  destruct (lt z x) eqn:Hzx; [| done].
  destruct (lt x y) eqn:Hlt.
  - by rewrite (lt_trans _ _ _ Hzx Hlt) in Hyz.
  - rewrite (lt_total _ _ Hlt Hxy) in Hzx. by rewrite Hzx in Hyz.
Qed.

Lemma go_min_spec (m x : T) :
  (go_min m x = m ∨ go_min m x = x) ∧ le (go_min m x) m ∧ le (go_min m x) x.
Proof.
  unfold go_min, le. destruct (lt x m) eqn:Hxm.
  - split_and!; [by right | by apply lt_asym | apply lt_irrefl].
  - split_and!; [by left | apply lt_irrefl | done].
Qed.

Lemma go_max_spec (m x : T) :
  (go_max m x = m ∨ go_max m x = x) ∧ le m (go_max m x) ∧ le x (go_max m x).
Proof.
  unfold go_max, le. destruct (lt m x) eqn:Hmx.
  - split_and!; [by right | by apply lt_asym | apply lt_irrefl].
  - split_and!; [by left | apply lt_irrefl | done].
Qed.

Lemma Min_loop_spec (x0 : T) (rest : list T) :
  let m := foldl (fun m xi => go_min m xi) x0 rest in
  m ∈ x0 :: rest ∧ ∀ e, e ∈ x0 :: rest → le m e.
Proof.
  induction rest as [|x rest IH] using rev_ind; cbn zeta.
  - split; [by left |]. intros e ->%list_elem_of_singleton. apply le_refl.
  - rewrite foldl_app. cbn [foldl]. cbn zeta in IH. destruct IH as [Hin Hle].
    set (m := foldl _ x0 rest) in *.
    destruct (go_min_spec m x) as ([-> | ->] & Hm & Hx).
    + split.
      * rewrite app_comm_cons. apply elem_of_app. by left.
      * intros e. rewrite app_comm_cons, elem_of_app, list_elem_of_singleton.
        intros [He | ->]; [by apply Hle | done].
    + split.
      * rewrite app_comm_cons. apply elem_of_app. right. by left.
      * intros e. rewrite app_comm_cons, elem_of_app, list_elem_of_singleton.
        intros [He | ->]; [| done]. eapply le_trans; [exact Hm | by apply Hle].
Qed.

Lemma Max_loop_spec (x0 : T) (rest : list T) :
  let m := foldl (fun m xi => go_max m xi) x0 rest in
  m ∈ x0 :: rest ∧ ∀ e, e ∈ x0 :: rest → le e m.
Proof.
  induction rest as [|x rest IH] using rev_ind; cbn zeta.
  - split; [by left |]. intros e ->%list_elem_of_singleton. apply le_refl.
  - rewrite foldl_app. cbn [foldl]. cbn zeta in IH. destruct IH as [Hin Hle].
    set (m := foldl _ x0 rest) in *.
    destruct (go_max_spec m x) as ([-> | ->] & Hm & Hx).
    + split.
      * rewrite app_comm_cons. apply elem_of_app. by left.
      * intros e. rewrite app_comm_cons, elem_of_app, list_elem_of_singleton.
        intros [He | ->]; [by apply Hle | done].
    + split.
      * rewrite app_comm_cons. apply elem_of_app. right. by left.
      * intros e. rewrite app_comm_cons, elem_of_app, list_elem_of_singleton.
        intros [He | ->]; [| done]. eapply le_trans; [by apply Hle | exact Hm].
Qed.

End OrderedProps.

(** C3. On a non-empty sequence over a totally ordered type, [MinMax]
    returns [(min, max)] with [min ≤ e ≤ max] for every element [e], and
    [min] and [max] are elements of the sequence. *)
Theorem MinMax_spec {T} `{Ordered T} (s : list T) :
  s ≠ [] →
  ∃ min max, MinMax s = Ok (min, max)
    ∧ min ∈ s ∧ max ∈ s
    ∧ ∀ e, e ∈ s → le min e ∧ le e max.
Proof.
  intros Hne. destruct s as [|x0 rest]; [done |].
  destruct (Min_loop_spec x0 rest) as [Hmin_in Hmin].
  destruct (Max_loop_spec x0 rest) as [Hmax_in Hmax].
  eexists _, _. split_and!; [reflexivity | exact Hmin_in | exact Hmax_in |].
  intros e He. split; [by apply Hmin | by apply Hmax].
Qed.

Lemma MinMax_spec_witness :
  ∃ min max, MinMax [5; 2; 9; 1] = Ok (min, max)
    ∧ min ∈ [5; 2; 9; 1] ∧ max ∈ [5; 2; 9; 1]
    ∧ ∀ e, e ∈ [5; 2; 9; 1] → le min e ∧ le e max.
Proof. apply (MinMax_spec [5; 2; 9; 1]). discriminate. Defined.

(** ** MinMaxFunc *)

Section MinMaxFuncProps.
Context {T : Type}.

Lemma cmp_self (less : T → T → Z) (a : T) : comparator less → less a a = 0.
Proof. intros [Hflip _]. specialize (Hflip a a). lia. Qed.

Lemma comparator_opp (less : T → T → Z) :
  comparator less → comparator (fun a b => - less a b).
Proof.
  intros [Hflip Htrans]. split.
  - intros a b. pose proof (Hflip a b). pose proof (Hflip b a). lia.
  - intros a b c Hab Hbc.
    assert (less c b ≤ 0) by (pose proof (Hflip b c); lia).
    assert (less b a ≤ 0) by (pose proof (Hflip a b); lia).
    assert (less c a ≤ 0) by eauto.
    pose proof (Hflip a c). lia.
Qed.

(** [MaxFunc] under [less] is [MinFunc] under the opposite comparison. *)
Lemma MaxFunc_opp (x0 : T) (rest : list T) (less : T → T → Z) :
  slices.MaxFunc (x0 :: rest) less
  = slices.MinFunc (x0 :: rest) (fun a b => - less a b).
Proof.
  unfold slices.MaxFunc, slices.MinFunc.
  f_equal. revert x0. induction rest as [|x rest IH]; intros x0; [done |].
  cbn [foldl]. rewrite <- IH. f_equal.
  destruct (decide (0 < less x x0)).
  - rewrite !bool_decide_eq_true_2 by lia. done.
  - rewrite !bool_decide_eq_false_2 by lia. done.
Qed.

(** Invariant of the scan of [MinFunc]: the candidate [m] sits at some
    index [i] of the part scanned so far, nothing scanned is smaller than
    [m], and everything before [i] is strictly greater than [m]. *)
Lemma MinFunc_loop_spec (less : T → T → Z) (x0 : T) (rest : list T) :
  comparator less →
  let m := foldl (fun m xi => if bool_decide (less xi m < 0) then xi else m)
                 x0 rest in
  ∃ i : nat, (x0 :: rest) !! i = Some m
    ∧ (∀ e, e ∈ x0 :: rest → less m e ≤ 0)
    ∧ (∀ k e, (k < i)%nat → (x0 :: rest) !! k = Some e → 0 < less e m).
Proof.
  intros Hc. pose proof Hc as [Hflip Htrans].
  induction rest as [|x rest IH] using rev_ind; cbn zeta.
  - exists 0%nat. split_and!; [done | | intros; lia].
    intros e ->%list_elem_of_singleton. by rewrite cmp_self.
  - rewrite foldl_app. cbn [foldl]. cbn zeta in IH.
    destruct IH as (i & Hi & Hmin & Hbefore).
    set (m := foldl _ x0 rest) in *.
    pose proof (lookup_lt_Some _ _ _ Hi) as Hlen.
    case_bool_decide as Hxm.
    + exists (length (x0 :: rest)). rewrite app_comm_cons. split_and!.
      * by apply list_lookup_middle.
      * intros e [He | ->%list_elem_of_singleton]%elem_of_app.
        -- apply Htrans with m; [lia | by apply Hmin].
        -- by rewrite cmp_self.
      * intros k e Hk He. rewrite lookup_app_l in He by done.
        assert (less m e ≤ 0)
          by (apply Hmin; apply list_elem_of_lookup; eauto).
        destruct (decide (0 < less e x)); [done |].
        assert (less m x ≤ 0) by (apply Htrans with e; [done | lia]).
        specialize (Hflip x m). lia.
    + exists i. rewrite app_comm_cons. split_and!.
      * by rewrite lookup_app_l.
      * intros e [He | ->%list_elem_of_singleton]%elem_of_app.
        -- by apply Hmin.
        -- pose proof (Hflip x m). lia.
      * intros k e Hk He. rewrite lookup_app_l in He by lia. eauto.
Qed.

Lemma MinFunc_first (less : T → T → Z) (s : list T) :
  comparator less → s ≠ [] →
  ∃ (i : nat) (m : T), slices.MinFunc s less = Ok m
    ∧ s !! i = Some m ∧ first_index (minimal less s) s i.
Proof.
  intros Hc Hne. destruct s as [|x0 rest]; [done |].
  destruct (MinFunc_loop_spec less x0 rest Hc) as (i & Hi & Hmin & Hbefore).
  eexists i, _. split_and!; [reflexivity | exact Hi | ].
  split; [eauto |].
  intros k e Hk He Hmine.
  specialize (Hbefore k e Hk He).
  assert (less e (foldl (fun m xi => if bool_decide (less xi m < 0) then xi else m)
                        x0 rest) ≤ 0); [| lia].
  apply Hmine. apply list_elem_of_lookup. eauto.
Qed.

Lemma MaxFunc_first (less : T → T → Z) (s : list T) :
  comparator less → s ≠ [] →
  ∃ (j : nat) (m : T), slices.MaxFunc s less = Ok m
    ∧ s !! j = Some m ∧ first_index (maximal less s) s j.
Proof.
  intros Hc Hne. destruct s as [|x0 rest]; [done |]. rewrite MaxFunc_opp.
  destruct (MinFunc_first _ (x0 :: rest) (comparator_opp _ Hc) Hne)
    as (j & m & Hm & Hj & [Hex Hfirst]).
  exists j, m. split_and!; [done | done |]. split.
  - destruct Hex as (x & Hx & Hmin). exists x. split; [done |].
    intros e He. specialize (Hmin e He). cbn beta in Hmin.
    destruct Hc as [Hflip _].
    pose proof (Hflip x e). pose proof (Hflip e x). lia.
  - intros k e Hk He Hmax. apply (Hfirst k e Hk He).
    intros e' He'. specialize (Hmax e' He'). cbn beta.
    destruct Hc as [Hflip _].
    pose proof (Hflip e e'). pose proof (Hflip e' e). lia.
Qed.

End MinMaxFuncProps.

(** C9. On a non-empty sequence, with a comparison function that follows
    the documented contract, [MinMaxFunc] returns as minimum the element at
    the first index holding a minimum, and as maximum the element at the
    first index holding a maximum: among tied elements the leftmost one is
    returned. *)
Theorem MinMaxFunc_first_tied {T} (s : list T) (less : T → T → Z) :
  s ≠ [] → comparator less →
  ∃ (i j : nat) (min max : T),
    MinMaxFunc s less = Ok (min, max)
    ∧ s !! i = Some min ∧ first_index (minimal less s) s i
    ∧ s !! j = Some max ∧ first_index (maximal less s) s j.
Proof.
  intros Hne Hc.
  destruct (MinFunc_first less s Hc Hne) as (i & mn & Hmn & Hi & Hfi).
  destruct (MaxFunc_first less s Hc Hne) as (j & mx & Hmx & Hj & Hfj).
  exists i, j, mn, mx. unfold MinMaxFunc. rewrite Hmn, Hmx. done.
Qed.

(** Comparing by an integer key follows the contract. *)
Lemma compare_key_comparator {T} (key : T → Z) :
  comparator (fun a b => compare (key a) (key b)).
Proof.
  split; unfold compare; intros; repeat case_bool_decide; lia.
Qed.

Lemma MinMaxFunc_first_tied_witness :
  ∃ (i j : nat) (min max : string * Z),
    MinMaxFunc [("a", 30); ("b", 25); ("c", 40); ("d", 25); ("e", 40)]%string
               (fun a b => compare a.2 b.2) = Ok (min, max)
    ∧ [("a", 30); ("b", 25); ("c", 40); ("d", 25); ("e", 40)]%string !! i
      = Some min
    ∧ first_index
        (minimal (fun a b => compare a.2 b.2)
           [("a", 30); ("b", 25); ("c", 40); ("d", 25); ("e", 40)]%string)
        [("a", 30); ("b", 25); ("c", 40); ("d", 25); ("e", 40)]%string i
    ∧ [("a", 30); ("b", 25); ("c", 40); ("d", 25); ("e", 40)]%string !! j
      = Some max
    ∧ first_index
        (maximal (fun a b => compare a.2 b.2)
           [("a", 30); ("b", 25); ("c", 40); ("d", 25); ("e", 40)]%string)
        [("a", 30); ("b", 25); ("c", 40); ("d", 25); ("e", 40)]%string j.
Proof.
  apply (MinMaxFunc_first_tied
           [("a", 30); ("b", 25); ("c", 40); ("d", 25); ("e", 40)]%string
           (fun a b => compare a.2 b.2)).
  - discriminate.
  - apply (compare_key_comparator snd).
Defined.

(** ** Chunk *)

Section ChunkProps.
Context {T : Type}.
Implicit Types (s c : list T) (cs chunks : list (list T)) (n i : Z).

Lemma Chunk_loop_step fuel s n i chunks :
  Chunk_loop (S fuel) s n i chunks
  = if bool_decide (i < len s) then
      match slice_expr s i (Z.min (add i n) (len s)) with
      | Panic msg => Some (Panic msg)
      | Ok c => Chunk_loop fuel s n (add i n) (chunks ++ [c])
      end
    else Some (Ok chunks).
Proof. reflexivity. Qed.

Lemma slice_expr_ok s lo hi :
  0 ≤ lo → lo ≤ hi → hi ≤ len s →
  slice_expr s lo hi = Ok (take (Z.to_nat (hi - lo)) (drop (Z.to_nat lo) s)).
Proof. intros. unfold slice_expr. by rewrite bool_decide_eq_true_2. Qed.

Lemma slice_expr_panic s lo hi :
  hi < lo → slice_expr s lo hi = Panic "slice bounds out of range".
Proof. intros. unfold slice_expr. rewrite bool_decide_eq_false_2; [done | lia]. Qed.

(** Every call with a positive size comes to an end: each iteration either
    panics or moves [i] forward by [n]. *)
Lemma Chunk_loop_total fuel s n i chunks :
  slice_ok s → 0 < n ≤ int_max → 0 ≤ i ≤ int_max →
  (Z.to_nat (len s - i) < fuel)%nat →
  ∃ r, Chunk_loop fuel s n i chunks = Some r.
Proof.
  intros Hok Hn. revert i chunks.
  induction fuel as [|fuel IH]; intros i chunks Hi Hfuel; [lia |].
  rewrite Chunk_loop_step. case_bool_decide as Hlt; [| eauto].
  destruct (decide (i + n ≤ int_max)) as [Hfit | Hover].
  - rewrite add_id by (unfold in_range, int_min, int_max in *; lia).
    rewrite slice_expr_ok by lia.
    apply IH; lia.
  - unfold add. rewrite wrap_overflow by lia.
    rewrite slice_expr_panic; [eauto |].
    unfold int_max in *. lia.
Qed.

Lemma chunked_nil_inv n cs : chunked n [] cs → cs = [].
Proof.
  intros Hcs. remember [] as s eqn:Hs.
  destruct Hcs as [| c Hc | c rest cs' Hlen Hrest Hcs]; [done | done |].
  by apply app_eq_nil in Hs as [_ ->].
Qed.

(** Without overflow of [i + n] the loop appends a chunking of the part of
    [s] from [i] on.  [i] is [0] or at least [n], so [i + n ≤ 2 * i] past
    the first iteration, and [len s ≤ 2 ^ 62] keeps that within [int]. *)
Lemma Chunk_loop_ok fuel s n i chunks :
  0 < n ≤ int_max → len s ≤ 2 ^ 62 → i = 0 ∨ n ≤ i →
  (Z.to_nat (len s - i) < fuel)%nat →
  ∃ cs, Chunk_loop fuel s n i chunks = Some (Ok (chunks ++ cs))
        ∧ chunked n (drop (Z.to_nat i) s) cs.
Proof.
  intros Hn Hlen. revert i chunks.
  induction fuel as [|fuel IH]; intros i chunks Hi Hfuel; [lia |].
  rewrite Chunk_loop_step. case_bool_decide as Hlt.
  - assert (Hfit : i + n ≤ int_max) by (unfold int_max in *; lia).
    rewrite add_id by (unfold in_range, int_min, int_max in *; lia).
    rewrite slice_expr_ok by lia.
    set (c := take _ _).
    destruct (IH (i + n) (chunks ++ [c])) as (cs & Hrun & Hcs); [lia | lia |].
    exists (c :: cs). split; [by rewrite Hrun, <- app_assoc |].
    assert (Hdrop : drop (Z.to_nat (i + n)) s
                    = drop (Z.to_nat n) (drop (Z.to_nat i) s)).
    { rewrite drop_drop. f_equal. lia. }
    destruct (decide (i + n < len s)) as [Hmore | Hlast].
    + assert (Hc : c = take (Z.to_nat n) (drop (Z.to_nat i) s)).
      { unfold c. f_equal. lia. }
      rewrite <- (take_drop (Z.to_nat n) (drop (Z.to_nat i) s)), <- Hc.
      rewrite <- Hdrop. apply chunked_cons; [| | done].
      * rewrite Hc. unfold len in *. rewrite length_take, length_drop. lia.
      * intros Hnil%(f_equal length). rewrite length_drop in Hnil.
        unfold len in *. simpl in Hnil. lia.
    + assert (Hc : c = drop (Z.to_nat i) s).
      { unfold c. apply take_ge. rewrite length_drop. unfold len in *. lia. }
      rewrite Hdrop, <- Hc in Hcs.
      rewrite drop_ge in Hcs
        by (rewrite Hc, length_drop; unfold len in *; lia).
      apply chunked_nil_inv in Hcs as ->.
      rewrite <- Hc. apply chunked_last.
      * intros Hnil%(f_equal length). rewrite Hc, length_drop in Hnil.
        unfold len in *. simpl in Hnil. lia.
      * rewrite Hc. unfold len in *. rewrite length_drop. lia.
  - exists []. split; [by rewrite app_nil_r |].
    rewrite drop_ge by (unfold len in *; lia). constructor.
Qed.

End ChunkProps.

Section ChunkedProps.
Context {T : Type}.
Implicit Types (s c : list T) (cs : list (list T)) (n : Z).

Lemma chunked_concat n s cs : chunked n s cs → concat cs = s.
Proof.
  induction 1 as [| c Hc Hlen | c rest cs Hlen Hrest Hcs IH]; simpl.
  - done.
  - by rewrite app_nil_r.
  - by rewrite IH.
Qed.

Lemma chunked_nonempty n s cs : chunked n s cs → s ≠ [] → cs ≠ [].
Proof. by destruct 1. Qed.

(** Every chunk that is not the last one has length [n]. *)
Lemma chunked_inner_length n s cs :
  chunked n s cs →
  ∀ (k : nat) c, cs !! k = Some c → (S k < length cs)%nat → len c = n.
Proof.
  induction 1 as [| c Hc Hlen | c rest cs Hlen Hrest Hcs IH]; intros k c' Hk Hnot.
  - done.
  - simpl in Hnot. lia.
  - destruct k as [|k]; simpl in *.
    + by injection Hk as <-.
    + apply (IH k); [done | lia].
Qed.

(** The last chunk holds what is left after the full chunks. *)
Lemma chunked_last_length n s cs :
  0 < n → chunked n s cs →
  ∀ c, last cs = Some c →
    0 < len c ≤ n ∧ len c = len s - n * (Z.of_nat (length cs) - 1).
Proof.
  intros Hn.
  induction 1 as [| c Hc Hlen | c rest cs Hlen Hrest Hcs IH]; intros c' Hlast.
  - done.
  - injection Hlast as <-. split; [| simpl; lia].
    destruct c; [done |]. unfold len in *. simpl in *. lia.
  - pose proof (chunked_nonempty _ _ _ Hcs Hrest) as Hne.
    destruct cs as [|c0 cs]; [done |].
    change (last (c :: c0 :: cs)) with (last (c0 :: cs)) in Hlast.
    destruct (IH c' Hlast) as [Hrange Heq]. split; [done |].
    unfold len in *. rewrite length_app. simpl length in *. lia.
Qed.

End ChunkedProps.

(** [Chunk] on every slice of at most [2 ^ 62] elements (which covers every
    slice whose elements occupy memory): it returns, the chunks put
    together are the input, every chunk but the last has length [n], and
    the last one has the length that remains. *)
Lemma Chunk_spec {T} (s : list T) (n : Z) :
  0 < n ≤ int_max → len s ≤ 2 ^ 62 →
  ∃ cs, Chunk (S (length s)) s n = Some (Ok cs)
    ∧ concat cs = s
    ∧ (∀ (k : nat) c, cs !! k = Some c → (S k < length cs)%nat → len c = n)
    ∧ (∀ c, last cs = Some c →
         0 < len c ≤ n ∧ len c = len s - n * (Z.of_nat (length cs) - 1)).
Proof.
  intros Hn Hlen.
  destruct (Chunk_loop_ok (S (length s)) s n 0 [] Hn Hlen) as (cs & Hrun & Hcs).
  { by left. }
  { unfold len. lia. }
  rewrite drop_0 in Hcs.
  exists cs. split_and!.
  - exact Hrun.
  - by eapply chunked_concat.
  - by eapply chunked_inner_length.
  - eapply chunked_last_length; [lia | done].
Qed.

Lemma Chunk_spec_example :
  ∃ cs, Chunk 6 [1; 2; 3; 4; 5] 2 = Some (Ok cs)
    ∧ concat cs = [1; 2; 3; 4; 5]
    ∧ (∀ (k : nat) c, cs !! k = Some c → (S k < length cs)%nat → len c = 2)
    ∧ (∀ c, last cs = Some c →
         0 < len c ≤ 2
         ∧ len c = len [1; 2; 3; 4; 5] - 2 * (Z.of_nat (length cs) - 1)).
Proof. apply (Chunk_spec [1; 2; 3; 4; 5] 2); vm_compute; done. Qed.

(** More fuel does not change a result. *)
Lemma Chunk_loop_mono {T} (fuel fuel' : nat) (s : list T) n i chunks r :
  (fuel ≤ fuel')%nat →
  Chunk_loop fuel s n i chunks = Some r →
  Chunk_loop fuel' s n i chunks = Some r.
Proof.
  revert fuel' i chunks.
  induction fuel as [|fuel IH]; intros fuel' i chunks Hle Hrun; [done |].
  destruct fuel' as [|fuel']; [lia |].
  rewrite Chunk_loop_step in *. case_bool_decide; [| done].
  destruct (slice_expr s i _); [| done].
  apply IH; [lia | done].
Qed.

Lemma Chunk_returns_unique {T} (s : list T) n r r' :
  Chunk_returns s n r → Chunk_returns s n r' → r = r'.
Proof.
  intros [fuel Hr] [fuel' Hr']. unfold Chunk in *.
  apply (Chunk_loop_mono _ (fuel `max` fuel')%nat) in Hr; [| lia].
  apply (Chunk_loop_mono _ (fuel `max` fuel')%nat) in Hr'; [| lia].
  congruence.
Qed.

(** *** Overflow of [i + size]

    On a slice of more than [2 ^ 62] elements the sum [i + size] can exceed
    [int_max].  It then wraps to a negative number, [min] selects it as
    [end], and [slice[i:end]] panics. *)
Lemma Chunk_overflow {T} (s : list T) :
  len s = 2 ^ 62 + 1 →
  Chunk 2 s (2 ^ 62) = Some (Panic "slice bounds out of range").
Proof.
  intros Hlen. unfold Chunk.
  rewrite Chunk_loop_step, bool_decide_eq_true_2 by lia.
  assert (H0 : add 0 (2 ^ 62) = 2 ^ 62) by (apply add_id; by vm_compute).
  rewrite H0, slice_expr_ok by lia.
  rewrite Chunk_loop_step, bool_decide_eq_true_2 by lia.
  assert (H1 : add (2 ^ 62) (2 ^ 62) = - 2 ^ 63) by by vm_compute.
  rewrite H1, slice_expr_panic by lia.
  done.
Qed.

(** C1, at a slice of [2 ^ 62 + 1] elements of the empty struct type and
    chunk size [2 ^ 62]: the first chunk is cut, and the second iteration
    panics instead of cutting the one-element rest. *)
Theorem Chunk_overflow_panics :
  Chunk 2 (replicate (Z.to_nat (2 ^ 62 + 1)) ()) (2 ^ 62)
  = Some (Panic "slice bounds out of range")
  ∧ ¬ ∃ cs, Chunk_returns (replicate (Z.to_nat (2 ^ 62 + 1)) ()) (2 ^ 62) (Ok cs).
Proof.
  assert (Hrun : Chunk 2 (replicate (Z.to_nat (2 ^ 62 + 1)) ()) (2 ^ 62)
                 = Some (Panic "slice bounds out of range")).
  { apply Chunk_overflow. unfold len. rewrite length_replicate. lia. }
  split; [exact Hrun |].
  intros [cs Hcs].
  assert (Hp : Chunk_returns (replicate (Z.to_nat (2 ^ 62 + 1)) ()) (2 ^ 62)
                 (Panic "slice bounds out of range")) by by exists 2%nat.
  pose proof (Chunk_returns_unique _ _ _ _ Hcs Hp). done.
Qed.

(** *** Sizes that are not positive *)

(** With size [0] and a non-empty slice, [i] stays [0]: every iteration
    appends the empty chunk [slice[0:0]] and no amount of fuel leaves the
    loop. *)
Lemma Chunk_loop_zero {T} (fuel : nat) (s : list T) chunks :
  s ≠ [] → Chunk_loop fuel s 0 0 chunks = None.
Proof.
  intros Hne. revert chunks.
  induction fuel as [|fuel IH]; intros chunks; [done |].
  rewrite Chunk_loop_step.
  rewrite bool_decide_eq_true_2 by (destruct s; [done | unfold len; simpl; lia]).
  change (add 0 0) with 0.
  rewrite slice_expr_ok by (pose proof (len_nonneg s); lia).
  apply IH.
Qed.

(** With a negative size and a non-empty slice the first iteration asks for
    [slice[0:size]] and panics. *)
Lemma Chunk_negative_panics {T} (fuel : nat) (s : list T) (n : Z) :
  s ≠ [] → int_min ≤ n < 0 →
  Chunk (S fuel) s n = Some (Panic "slice bounds out of range").
Proof.
  intros Hne Hn. unfold Chunk. rewrite Chunk_loop_step.
  rewrite bool_decide_eq_true_2 by (destruct s; [done | unfold len; simpl; lia]).
  rewrite add_id by (unfold in_range, int_min, int_max in *; lia).
  rewrite slice_expr_panic by lia. done.
Qed.

(** Behaviour of [Chunk] by the sign of the size.  For a positive size the
    call comes to an end after at most [len(s)] iterations, by returning
    or by panicking; up to [2 ^ 62] elements no index computation
    overflows and it returns.  On a non-empty sequence size [0] loops
    forever, and a negative size panics at the first iteration. *)
Theorem Chunk_terminates {T} (s : list T) (n : Z) :
  slice_ok s → int_min ≤ n ≤ int_max →
  (0 < n → ∃ r, Chunk (S (length s)) s n = Some r
                 ∧ (len s ≤ 2 ^ 62 → ∃ cs, r = Ok cs))
  ∧ (n = 0 → s ≠ [] → Chunk_diverges s n)
  ∧ (n < 0 → s ≠ [] → Chunk_returns s n (Panic "slice bounds out of range")).
Proof.
  intros Hok Hn. split_and!.
  - intros Hpos.
    destruct (Chunk_loop_total (S (length s)) s n 0 [] Hok) as [r Hr];
      [lia | unfold int_max; lia | unfold len; lia |].
    exists r. split; [exact Hr |]. intros Hlen.
    destruct (Chunk_spec s n) as (cs & Hcs & _); [lia | done |].
    exists cs. unfold Chunk in Hcs. congruence.
  - intros -> Hne fuel. by apply Chunk_loop_zero.
  - intros Hneg Hne. exists 1%nat. apply Chunk_negative_panics; [done | lia].
Qed.

Lemma Chunk_terminates_witness :
  ∃ r, Chunk 6 [1; 2; 3; 4; 5] 2 = Some r
       ∧ (len [1; 2; 3; 4; 5] ≤ 2 ^ 62 → ∃ cs, r = Ok cs).
Proof.
  apply (Chunk_terminates [1; 2; 3; 4; 5] 2).
  - vm_compute. discriminate.
  - vm_compute. split; discriminate.
  - lia.
Defined.

(** The second iteration on a slice of [2 ^ 62 + 1] elements with size
    [2 ^ 62], whatever has been collected so far: [i] is [2 ^ 62], still
    below [len(s)], and the iteration panics. *)
Lemma Chunk_loop_overflow_step {T} (s : list T) (fuel : nat) chunks :
  len s = 2 ^ 62 + 1 →
  Chunk_loop (S fuel) s (2 ^ 62) (2 ^ 62) chunks
  = Some (Panic "slice bounds out of range").
Proof.
  intros Hlen.
  rewrite Chunk_loop_step, bool_decide_eq_true_2 by lia.
  assert (H1 : add (2 ^ 62) (2 ^ 62) = - 2 ^ 63) by by vm_compute.
  rewrite H1, slice_expr_panic by lia.
  done.
Qed.

(** C8, at a slice of [2 ^ 62 + 1] elements of the empty struct type and
    chunk size [2 ^ 62], a positive size: the loop does not reach the end
    of the sequence.  With the index at [2 ^ 62], one element before the
    end, the next iteration panics, so the call ends by a panic and no
    amount of fuel makes it return. *)
Theorem Chunk_overflow_stops_before_end :
  (∀ (fuel : nat) chunks,
     Chunk_loop (S fuel) (replicate (Z.to_nat (2 ^ 62 + 1)) ()) (2 ^ 62)
       (2 ^ 62) chunks
     = Some (Panic "slice bounds out of range"))
  ∧ 2 ^ 62 < len (replicate (Z.to_nat (2 ^ 62 + 1)) ())
  ∧ ∀ (fuel : nat) cs,
      Chunk fuel (replicate (Z.to_nat (2 ^ 62 + 1)) ()) (2 ^ 62) ≠ Some (Ok cs).
Proof.
  assert (Hlen : len (replicate (Z.to_nat (2 ^ 62 + 1)) ()) = 2 ^ 62 + 1).
  { unfold len. rewrite length_replicate. lia. }
  split_and!.
  - intros fuel chunks. by apply Chunk_loop_overflow_step.
  - rewrite Hlen. lia.
  - intros fuel cs Hcs.
    assert (Hok : Chunk_returns (replicate (Z.to_nat (2 ^ 62 + 1)) ()) (2 ^ 62)
                    (Ok cs)) by by exists fuel.
    assert (Hp : Chunk_returns (replicate (Z.to_nat (2 ^ 62 + 1)) ()) (2 ^ 62)
                   (Panic "slice bounds out of range")).
    { exists 2%nat. by apply Chunk_overflow. }
    pose proof (Chunk_returns_unique _ _ _ _ Hok Hp). done.
Qed.

(** C10. On the empty sequence the loop condition fails at once, whatever
    the size: [Chunk] returns the empty sequence of chunks. *)
Theorem Chunk_empty {T} (size : Z) (fuel : nat) :
  Chunk (S fuel) (@nil T) size = Some (Ok [])
  ∧ Chunk_returns (@nil T) size (Ok []).
Proof. split; [done | by exists 1%nat]. Qed.

(** * Further properties of the package *)

(** ** Filter *)

(** [Filter] keeps exactly the elements that satisfy the predicate, in
    their original order. *)
Theorem Filter_keeps_exactly {T} (s : list T) (keep : T → bool) :
  (∀ x, x ∈ Filter s keep ↔ x ∈ s ∧ keep x = true)
  ∧ Filter s keep `sublist_of` s
  ∧ (length (Filter s keep) ≤ length s)%nat.
Proof.
  rewrite Filter_spec. split_and!.
  - intros x. rewrite !list_elem_of_In. apply filter_In.
  - induction s as [|v s IH]; [done |]. simpl.
    destruct (keep v); [by apply sublist_skip | by apply sublist_cons].
  - apply List.filter_length_le.
Qed.

(** Filtering twice is filtering once by the conjunction; in particular
    the order of two filters does not matter and [Filter] is idempotent. *)
Theorem Filter_Filter {T} (s : list T) (p q : T → bool) :
  Filter (Filter s p) q = Filter s (fun v => p v && q v)
  ∧ Filter (Filter s p) q = Filter (Filter s q) p
  ∧ Filter (Filter s p) p = Filter s p.
Proof.
  assert (Hpq : ∀ p q : T → bool,
             Filter (Filter s p) q = Filter s (fun v => p v && q v)).
  { intros p' q'. rewrite !Filter_spec.
    induction s as [|v s IH]; [done |]. simpl.
    destruct (p' v); simpl; [destruct (q' v) |]; by rewrite ?IH. }
  split_and!.
  - apply Hpq.
  - rewrite !Hpq, !Filter_spec. apply List.filter_ext. intros v. apply andb_comm.
  - rewrite Hpq, !Filter_spec. apply List.filter_ext. intros v. by destruct (p v).
Qed.

(** ** Map *)

(** [Map] keeps the length and applies [f] position by position. *)
Theorem Map_pointwise {T R} (s : list T) (f : T → R) :
  length (Map s f) = length s
  ∧ ∀ i : nat, Map s f !! i = f <$> s !! i.
Proof.
  rewrite Map_spec. split; [apply length_fmap |].
  intros i. apply list_lookup_fmap.
Qed.

(** Two [Map]s compose into one, and [Filter] after [Map] is [Map] after
    [Filter] with the predicate pulled back along [f]. *)
Theorem Map_compose {T R Q} (s : list T) (f : T → R) (g : R → Q) (p : R → bool) :
  Map (Map s f) g = Map s (fun v => g (f v))
  ∧ Filter (Map s f) p = Map (Filter s (fun v => p (f v))) f.
Proof.
  rewrite !Map_spec. split.
  - by rewrite <- list_fmap_compose.
  - rewrite (Filter_spec p), (Filter_spec (fun v => p (f v))).
    induction s as [|v s IH]; [done |]. csimpl.
    destruct (p (f v)); csimpl; by rewrite IH.
Qed.

(** ** Partition *)

(** The two parts of [Partition] are disjoint in position and together
    hold every element of the input once: they are subsequences of the
    input, and the two of them put together are a permutation of it. *)
Theorem Partition_stable_split {T} (s : list T) (pred : T → bool) :
  (Partition s pred).1 ++ (Partition s pred).2 ≡ₚ s
  ∧ (Partition s pred).1 `sublist_of` s
  ∧ (Partition s pred).2 `sublist_of` s
  ∧ (length (Partition s pred).1 + length (Partition s pred).2 = length s)%nat
  ∧ (∀ x, x ∈ (Partition s pred).1 → pred x = true)
  ∧ (∀ x, x ∈ (Partition s pred).2 → pred x = false).
Proof.
  unfold Partition. rewrite Partition_acc. cbn [fst snd app].
  rewrite !Filter_spec.
  assert (Hperm : List.filter pred s ++ List.filter (fun v => negb (pred v)) s ≡ₚ s).
  { induction s as [|v s IH]; [done |]. simpl.
    destruct (pred v); simpl.
    - by rewrite IH.
    - rewrite <- Permutation_middle. by rewrite IH. }
  assert (Hsub : ∀ q : T → bool, List.filter q s `sublist_of` s).
  { clear Hperm. intros q. induction s as [|v s IH]; [done |]. simpl.
    destruct (q v); [by apply sublist_skip | by apply sublist_cons]. }
  split_and!; [done | apply Hsub | apply Hsub | | |].
  - rewrite <- length_app. by rewrite Hperm.
  - intros x [_ Hx]%list_elem_of_In%filter_In. done.
  - intros x [_ Hx]%list_elem_of_In%filter_In. by apply negb_true_iff.
Qed.

(** ** Reduce and Flatten *)

(** Reducing a concatenation continues from the result of the first
    part, and reducing a flattened sequence is reducing the inner
    sequences one after the other. *)
Theorem Reduce_Flatten {T R} (ss : list (list T)) (s t : list T)
    (init : R) (f : R → T → R) :
  Reduce (s ++ t) init f = Reduce t (Reduce s init f) f
  ∧ Reduce (Flatten ss) init f
    = Reduce ss init (fun acc inner => Reduce inner acc f).
Proof.
  split; [apply foldl_app |].
  rewrite Flatten_spec. unfold Reduce. revert init.
  induction ss as [|inner ss IH]; intros init; [done |].
  simpl. by rewrite foldl_app, IH.
Qed.

(** [Flatten] holds the elements of the inner sequences and nothing else,
    its length is the sum of their lengths, and it commutes with [Map]. *)
Theorem Flatten_elements {T R} (ss : list (list T)) (f : T → R) :
  (∀ x, x ∈ Flatten ss ↔ ∃ inner, inner ∈ ss ∧ x ∈ inner)
  ∧ length (Flatten ss) = sum_list (length <$> ss)
  ∧ Map (Flatten ss) f = Flatten (Map ss (fun inner => Map inner f))
  ∧ Flatten (Map (Flatten ss) (fun x => [x])) = Flatten ss.
Proof.
  rewrite !Map_spec, !Flatten_spec. split_and!.
  - intros x. rewrite list_elem_of_In, in_concat.
    split; intros (inner & Hin & Hx); exists inner;
      by rewrite ?list_elem_of_In in *.
  - induction ss as [|inner ss IH]; [done |].
    simpl. by rewrite length_app, IH.
  - induction ss as [|inner ss IH]; [done |].
    csimpl. by rewrite fmap_app, IH, Map_spec.
  - generalize (concat ss). intros l.
    induction l as [|x l IH]; [done |]. csimpl. by rewrite IH.
Qed.

(** ** Unique *)

Section UniqueMore.
Context {T : Type} `{Countable T}.

Lemma Unique_snoc (s : list T) (x : T) :
  Unique (s ++ [x]) = Unique s ++ (if bool_decide (x ∈ s) then [] else [x]).
Proof. rewrite !Unique_first_occurrences. apply first_occurrences_snoc. Qed.

Lemma Filter_snoc (s : list T) (x : T) (keep : T → bool) :
  Filter (s ++ [x]) keep = Filter s keep ++ (if keep x then [x] else []).
Proof.
  unfold Filter at 1. rewrite foldl_app. cbn [foldl].
  fold (Filter s keep). destruct (keep x); [done | by rewrite app_nil_r].
Qed.

Lemma Filter_elem (s : list T) (keep : T → bool) (x : T) :
  x ∈ Filter s keep ↔ x ∈ s ∧ keep x = true.
Proof. rewrite Filter_spec, !list_elem_of_In. apply filter_In. Qed.

End UniqueMore.

(** [Unique] leaves a sequence as it is exactly when the sequence has no
    duplicates, and never makes it longer. *)
Theorem Unique_fixpoint {T} `{Countable T} (s : list T) :
  (Unique s = s ↔ NoDup s) ∧ (length (Unique s) ≤ length s)%nat.
Proof.
  rewrite Unique_first_occurrences. split.
  - split; [| apply first_occurrences_id].
    intros Heq. rewrite <- Heq. apply first_occurrences_NoDup.
  - apply sublist_length, first_occurrences_sublist.
Qed.

(** Removing duplicates and filtering can be done in either order. *)
Theorem Unique_Filter_commute {T} `{Countable T} (s : list T) (keep : T → bool) :
  Filter (Unique s) keep = Unique (Filter s keep).
Proof.
  induction s as [|x s IH] using rev_ind; [done |].
  rewrite Unique_snoc, (Filter_snoc s).
  destruct (keep x) eqn:Hx.
  - rewrite Unique_snoc, <- IH.
    destruct (decide (x ∈ s)) as [Hin | Hin].
    + rewrite !bool_decide_eq_true_2; [by rewrite !app_nil_r | | done].
      by apply Filter_elem.
    + rewrite !bool_decide_eq_false_2; [by rewrite Filter_snoc, Hx | | done].
      intros [? _]%Filter_elem. done.
  - rewrite app_nil_r, <- IH. case_bool_decide.
    + by rewrite app_nil_r.
    + by rewrite Filter_snoc, Hx, app_nil_r.
Qed.

(** ** UniqueBy *)

Section UniqueByProps.
Context {T K : Type} `{Countable K}.
Implicit Types (s : list T) (keyFunc : T → K).

Lemma UniqueBy_loop_snoc keyFunc s x st :
  foldl (UniqueBy_step keyFunc) st (s ++ [x])
  = UniqueBy_step keyFunc (foldl (UniqueBy_step keyFunc) st s) x.
Proof. by rewrite foldl_app. Qed.

(** After the loop [seen] holds the keys of the elements visited. *)
Lemma UniqueBy_seen keyFunc s :
  (foldl (UniqueBy_step keyFunc) ([], ∅) s).2 = list_to_set (keyFunc <$> s).
Proof.
  induction s as [|x s IH] using rev_ind; [done |].
  rewrite UniqueBy_loop_snoc, fmap_app.
  change (keyFunc <$> [x]) with [keyFunc x]. rewrite list_to_set_snoc_L.
  destruct (foldl _ _ s) as [unique seen]. cbn [snd] in IH. subst seen.
  unfold UniqueBy_step. case_bool_decide as Hin; cbn [snd].
  - symmetry. rewrite (comm_L (∪)).
    by apply subseteq_union_1_L, singleton_subseteq_l.
  - apply (comm_L (∪)).
Qed.

Lemma UniqueBy_snoc keyFunc s x :
  UniqueBy (s ++ [x]) keyFunc
  = UniqueBy s keyFunc
    ++ (if bool_decide (keyFunc x ∈ keyFunc <$> s) then [] else [x]).
Proof.
  unfold UniqueBy. rewrite UniqueBy_loop_snoc.
  pose proof (UniqueBy_seen keyFunc s) as Hseen.
  destruct (foldl _ _ s) as [unique seen]. cbn [fst snd] in *. subst seen.
  unfold UniqueBy_step.
  destruct (decide (keyFunc x ∈ keyFunc <$> s)) as [Hin | Hin].
  - rewrite !bool_decide_eq_true_2;
      [by rewrite app_nil_r | done | by apply elem_of_list_to_set].
  - rewrite !bool_decide_eq_false_2; [done | done |].
    by rewrite elem_of_list_to_set.
Qed.

Lemma UniqueBy_sublist keyFunc s : UniqueBy s keyFunc `sublist_of` s.
Proof.
  induction s as [|x s IH] using rev_ind; [done |].
  rewrite UniqueBy_snoc. case_bool_decide.
  - rewrite app_nil_r. by apply sublist_inserts_r.
  - by apply sublist_app.
Qed.

Lemma UniqueBy_keys keyFunc s :
  keyFunc <$> UniqueBy s keyFunc = Unique (keyFunc <$> s).
Proof.
  induction s as [|x s IH] using rev_ind; [done |].
  rewrite UniqueBy_snoc, !fmap_app.
  change (keyFunc <$> [x]) with [keyFunc x].
  rewrite Unique_snoc, IH. f_equal.
  by case_bool_decide.
Qed.

Lemma UniqueBy_NoDup_id keyFunc s :
  NoDup (keyFunc <$> s) → UniqueBy s keyFunc = s.
Proof.
  induction s as [|x s IH] using rev_ind; intros Hnd; [done |].
  rewrite fmap_app in Hnd. apply NoDup_app in Hnd as (Hs & Hx & _).
  rewrite UniqueBy_snoc, IH by done.
  rewrite bool_decide_eq_false_2; [done |].
  intros Hin. apply (Hx _ Hin). by apply list_elem_of_singleton.
Qed.

End UniqueByProps.

(** [UniqueBy] keeps a subsequence of the input whose keys are pairwise
    different and are the keys of the input, in the order of their first
    occurrence; every input element has its key represented; and
    [UniqueBy] is idempotent. *)
Theorem UniqueBy_spec {T K} `{Countable K} (s : list T) (keyFunc : T → K) :
  UniqueBy s keyFunc `sublist_of` s
  ∧ keyFunc <$> UniqueBy s keyFunc = Unique (keyFunc <$> s)
  ∧ NoDup (keyFunc <$> UniqueBy s keyFunc)
  ∧ (∀ x, x ∈ s → ∃ y, y ∈ UniqueBy s keyFunc ∧ keyFunc y = keyFunc x)
  ∧ UniqueBy (UniqueBy s keyFunc) keyFunc = UniqueBy s keyFunc.
Proof.
  assert (Hnd : NoDup (keyFunc <$> UniqueBy s keyFunc)).
  { rewrite UniqueBy_keys, Unique_first_occurrences.
    apply first_occurrences_NoDup. }
  split_and!.
  - apply UniqueBy_sublist.
  - apply UniqueBy_keys.
  - exact Hnd.
  - intros x Hx.
    assert (Hk : keyFunc x ∈ keyFunc <$> UniqueBy s keyFunc).
    { rewrite UniqueBy_keys, Unique_first_occurrences.
      apply first_occurrences_elem. by apply list_elem_of_fmap_2. }
    apply list_elem_of_fmap in Hk as (y & Hy & Hin). eauto.
  - by apply UniqueBy_NoDup_id.
Qed.

(** The element kept for a key is the first input element with that key:
    nothing before it in the input has the same key. *)
Theorem UniqueBy_keeps_first {T K} `{Countable K} (s : list T) (keyFunc : T → K)
    (x : T) :
  x ∈ UniqueBy s keyFunc →
  ∃ i : nat, s !! i = Some x
    ∧ ∀ (j : nat) y, (j < i)%nat → s !! j = Some y → keyFunc y ≠ keyFunc x.
Proof.
  revert x. induction s as [|v s IH] using rev_ind; intros x Hx.
  - by apply elem_of_nil in Hx.
  - rewrite UniqueBy_snoc in Hx. apply elem_of_app in Hx as [Hx | Hx].
    + destruct (IH x Hx) as (i & Hi & Hfirst).
      pose proof (lookup_lt_Some _ _ _ Hi).
      exists i. split; [by rewrite lookup_app_l |].
      intros j y Hj Hy. rewrite lookup_app_l in Hy by lia. eauto.
    + case_bool_decide as Hin; [by apply elem_of_nil in Hx |].
      apply list_elem_of_singleton in Hx as ->.
      exists (length s). split; [by apply list_lookup_middle |].
      intros j y Hj Hy Hkey. rewrite lookup_app_l in Hy by done.
      apply Hin. rewrite <- Hkey. apply list_elem_of_fmap_2.
      apply list_elem_of_lookup. eauto.
Qed.

Lemma UniqueBy_keeps_first_witness :
  ∃ i : nat, [(1, 10); (2, 20); (3, 10)] !! i = Some (1, 10)
    ∧ ∀ (j : nat) y, (j < i)%nat → [(1, 10); (2, 20); (3, 10)] !! j = Some y →
        y.2 ≠ (1, 10).2.
Proof.
  apply (UniqueBy_keeps_first [(1, 10); (2, 20); (3, 10)] snd (1, 10)).
  vm_compute. left.
Defined.

(** With the identity as key function [UniqueBy] is [Unique]. *)
Theorem UniqueBy_id {T} `{Countable T} (s : list T) :
  UniqueBy s (fun x => x) = Unique s.
Proof.
  induction s as [|x s IH] using rev_ind; [done |].
  rewrite UniqueBy_snoc, Unique_snoc, IH, list_fmap_id. done.
Qed.

(** ** GroupBy *)

Section GroupByProps.
Context {T K : Type} `{Countable K}.
Implicit Types (s : list T) (keyFunc : T → K).

Lemma GroupBy_snoc keyFunc s v :
  GroupBy (s ++ [v]) keyFunc
  = <[keyFunc v := default [] (GroupBy s keyFunc !! keyFunc v) ++ [v]]>
      (GroupBy s keyFunc).
Proof. unfold GroupBy. by rewrite foldl_app. Qed.

Lemma GroupBy_lookup_Filter keyFunc s k :
  GroupBy s keyFunc !! k
  = match Filter s (fun v => bool_decide (keyFunc v = k)) with
    | [] => None
    | x :: g => Some (x :: g)
    end.
Proof.
  induction s as [|v s IH] using rev_ind; [done |].
  rewrite GroupBy_snoc, Filter_snoc.
  destruct (decide (keyFunc v = k)) as [<- | Hne].
  - rewrite lookup_insert_eq, IH, bool_decide_eq_true_2 by done.
    by destruct (Filter s _).
  - rewrite lookup_insert_ne, IH, bool_decide_eq_false_2 by done.
    by rewrite app_nil_r.
Qed.

Lemma GroupBy_lookup_None keyFunc s k :
  GroupBy s keyFunc !! k = None ↔ k ∉ keyFunc <$> s.
Proof.
  rewrite GroupBy_lookup_Filter.
  destruct (Filter s _) as [|x g] eqn:Hf.
  - split; [| done]. intros _ (v & -> & Hv)%list_elem_of_fmap.
    assert (Hin : v ∈ Filter s (fun v' => bool_decide (keyFunc v' = keyFunc v))).
    { apply Filter_elem. split; [done | by apply bool_decide_eq_true_2]. }
    rewrite Hf in Hin. by apply elem_of_nil in Hin.
  - split; [done |]. intros Hnot. exfalso. apply Hnot.
    assert (Hin : x ∈ Filter s (fun v => bool_decide (keyFunc v = k)))
      by (rewrite Hf; left).
    apply Filter_elem in Hin as [Hx Hk%bool_decide_eq_true_1].
    rewrite <- Hk. by apply list_elem_of_fmap_2.
Qed.

Lemma GroupBy_dom keyFunc s :
  dom (GroupBy s keyFunc) = list_to_set (keyFunc <$> s).
Proof.
  apply set_eq. intros k.
  rewrite elem_of_dom, elem_of_list_to_set, <- not_eq_None_Some.
  rewrite GroupBy_lookup_None. split; [apply dec_stable | by intros ? ?].
Qed.

End GroupByProps.

(** The group of a key holds the input elements with that key, in input
    order; a key that no element has is absent from the map, so no group
    is empty; and the keys of the map are the keys of the input. *)
Theorem GroupBy_lookup {T K} `{Countable K} (s : list T) (keyFunc : T → K) (k : K) :
  GroupBy s keyFunc !! k
  = match Filter s (fun v => bool_decide (keyFunc v = k)) with
    | [] => None
    | x :: g => Some (x :: g)
    end
  ∧ (GroupBy s keyFunc !! k = None ↔ ∀ v, v ∈ s → keyFunc v ≠ k)
  ∧ GroupBy s keyFunc !! k ≠ Some []
  ∧ dom (GroupBy s keyFunc) = list_to_set (keyFunc <$> s).
Proof.
  split_and!.
  - apply GroupBy_lookup_Filter.
  - rewrite GroupBy_lookup_None. split.
    + intros Hnot v Hv Hk. apply Hnot. rewrite <- Hk.
      by apply list_elem_of_fmap_2.
    + intros Hall (v & -> & Hv)%list_elem_of_fmap. by apply (Hall v).
  - rewrite GroupBy_lookup_Filter. by destruct (Filter s _).
  - apply GroupBy_dom.
Qed.

(** [UniqueBy] keeps the head of every group of [GroupBy]: an element is
    kept exactly when the group of its key starts with it; and there are
    as many groups as kept elements. *)
Theorem GroupBy_heads {T K} `{Countable K} (s : list T) (keyFunc : T → K) :
  (∀ x, x ∈ UniqueBy s keyFunc →
        ∃ g, GroupBy s keyFunc !! keyFunc x = Some (x :: g))
  ∧ (∀ k x g, GroupBy s keyFunc !! k = Some (x :: g) →
        x ∈ UniqueBy s keyFunc ∧ keyFunc x = k)
  ∧ size (GroupBy s keyFunc) = length (UniqueBy s keyFunc).
Proof.
  split_and!.
  - induction s as [|v s IH] using rev_ind; intros x Hx.
    { by apply elem_of_nil in Hx. }
    rewrite UniqueBy_snoc in Hx. rewrite GroupBy_snoc.
    apply elem_of_app in Hx as [Hx | Hx].
    + destruct (IH x Hx) as [g Hg].
      destruct (decide (keyFunc v = keyFunc x)) as [Hk | Hk].
      * rewrite Hk, lookup_insert_eq, Hg. by exists (g ++ [v]).
      * rewrite lookup_insert_ne by done. eauto.
    + case_bool_decide as Hin; [by apply elem_of_nil in Hx |].
      apply list_elem_of_singleton in Hx as ->.
      apply GroupBy_lookup_None in Hin.
      rewrite lookup_insert_eq, Hin. by exists [].
  - induction s as [|v s IH] using rev_ind; intros k x g Hg; [done |].
    rewrite GroupBy_snoc in Hg. rewrite UniqueBy_snoc, elem_of_app.
    destruct (decide (keyFunc v = k)) as [Hk | Hk].
    + rewrite Hk, lookup_insert_eq in Hg.
      destruct (GroupBy s keyFunc !! k) as [[|x' g']|] eqn:Hgrp.
      * exfalso. rewrite GroupBy_lookup_Filter in Hgrp.
        by destruct (Filter s _).
      * cbn [default app] in Hg. injection Hg as -> _.
        destruct (IH _ _ _ Hgrp). split; [by left | done].
      * cbn [default app] in Hg. injection Hg as -> _.
        apply GroupBy_lookup_None in Hgrp. rewrite <- Hk in Hgrp.
        rewrite bool_decide_eq_false_2 by done.
        split; [right; by apply list_elem_of_singleton | done].
    + rewrite lookup_insert_ne in Hg by done.
      destruct (IH _ _ _ Hg). split; [by left | done].
  - rewrite <- size_dom, GroupBy_dom.
    rewrite <- (length_fmap keyFunc), UniqueBy_keys, Unique_first_occurrences.
    assert (Hset : list_to_set (keyFunc <$> s)
                   =@{gset K} list_to_set (first_occurrences (keyFunc <$> s))).
    { apply set_eq. intros k. rewrite !elem_of_list_to_set.
      by rewrite first_occurrences_elem. }
    rewrite Hset. apply size_list_to_set, first_occurrences_NoDup.
Qed.

(** ** Chunk: the exact domain and the exact pieces *)

Section ChunkExact.
Context {T : Type}.
Implicit Types (s c : list T) (cs chunks : list (list T)) (n i : Z).

(** One iteration of the loop, on the side of the specification. *)
Lemma chunked_step s n i cs :
  0 < n → 0 ≤ i < len s →
  chunked n (drop (Z.to_nat (i + n)) s) cs →
  chunked n (drop (Z.to_nat i) s)
    (take (Z.to_nat (Z.min (i + n) (len s) - i)) (drop (Z.to_nat i) s) :: cs).
Proof.
  intros Hn Hi Hcs. set (c := take _ _).
  assert (Hdrop : drop (Z.to_nat (i + n)) s
                  = drop (Z.to_nat n) (drop (Z.to_nat i) s)).
  { rewrite drop_drop. f_equal. lia. }
  destruct (decide (i + n < len s)) as [Hmore | Hlast].
  - assert (Hc : c = take (Z.to_nat n) (drop (Z.to_nat i) s)).
    { unfold c. f_equal. lia. }
    rewrite <- (take_drop (Z.to_nat n) (drop (Z.to_nat i) s)), <- Hc.
    rewrite <- Hdrop. apply chunked_cons; [| | done].
    + rewrite Hc. unfold len in *. rewrite length_take, length_drop. lia.
    + intros Hnil%(f_equal length). rewrite length_drop in Hnil.
      unfold len in *. simpl in Hnil. lia.
  - assert (Hc : c = drop (Z.to_nat i) s).
    { unfold c. apply take_ge. rewrite length_drop. unfold len in *. lia. }
    rewrite Hdrop, <- Hc in Hcs.
    rewrite drop_ge in Hcs
      by (rewrite Hc, length_drop; unfold len in *; lia).
    apply chunked_nil_inv in Hcs as ->.
    rewrite <- Hc. apply chunked_last.
    + intros Hnil%(f_equal length). rewrite Hc, length_drop in Hnil.
      unfold len in *. simpl in Hnil. lia.
    + rewrite Hc. unfold len in *. rewrite length_drop. lia.
Qed.

(** The value of [i] when the loop is left, seen from the current [i]:
    the loop returns when that value is an [int], and panics when it is
    not. *)
Lemma Chunk_loop_exact fuel s n i chunks :
  slice_ok s → 0 < n ≤ int_max → 0 ≤ i ≤ int_max → i < len s + n →
  (Z.to_nat (len s - i) < fuel)%nat →
  (i + n * ((len s - i + n - 1) / n) ≤ int_max →
     ∃ cs, Chunk_loop fuel s n i chunks = Some (Ok (chunks ++ cs))
           ∧ chunked n (drop (Z.to_nat i) s) cs)
  ∧ (int_max < i + n * ((len s - i + n - 1) / n) →
     Chunk_loop fuel s n i chunks = Some (Panic "slice bounds out of range")).
Proof.
  intros Hok Hn. revert i chunks.
  induction fuel as [|fuel IH]; intros i chunks Hi Hnear Hfuel; [lia |].
  rewrite Chunk_loop_step. case_bool_decide as Hlt.
  - assert (Hdiv : (len s - i + n - 1) / n
                   = (len s - (i + n) + n - 1) / n + 1).
    { rewrite <- Z.div_add by lia. f_equal. lia. }
    assert (Hq : 0 ≤ (len s - (i + n) + n - 1) / n)
      by (apply Z.div_pos; lia).
    rewrite Hdiv.
    replace (i + n * ((len s - (i + n) + n - 1) / n + 1))
      with (i + n + n * ((len s - (i + n) + n - 1) / n)) by lia.
    destruct (decide (i + n ≤ int_max)) as [Hfit | Hover].
    + rewrite add_id by (unfold in_range, int_min, int_max in *; lia).
      rewrite slice_expr_ok by lia.
      destruct (IH (i + n) (chunks ++ [take (Z.to_nat (Z.min (i + n) (len s) - i))
                                             (drop (Z.to_nat i) s)]))
        as [IHok IHpanic]; [lia | lia | lia |].
      split; [| exact IHpanic].
      intros Hfin. destruct (IHok Hfin) as (cs & Hrun & Hcs).
      eexists (_ :: cs). split; [by rewrite Hrun, <- app_assoc |].
      apply chunked_step; [lia | lia | done].
    + split; [nia |]. intros _.
      unfold add. rewrite wrap_overflow by lia.
      rewrite slice_expr_panic; [done |]. unfold int_max in *. lia.
  - rewrite Z.div_small by lia. split; [| lia].
    intros _. exists []. split; [by rewrite app_nil_r |].
    rewrite drop_ge by (unfold len in *; lia). constructor.
Qed.

(** The [k]-th piece of a chunking starts at index [k * n]. *)
Lemma chunked_lookup n s cs :
  0 < n → chunked n s cs →
  ∀ (k : nat) c, cs !! k = Some c →
    c = take (Z.to_nat n) (drop (k * Z.to_nat n) s) ∧ c ≠ [].
Proof.
  intros Hn.
  induction 1 as [| c Hc Hlen | c rest cs Hlen Hrest Hcs IH]; intros k c' Hk.
  - done.
  - destruct k as [|k]; [| done]. injection Hk as <-.
    split; [| done]. rewrite Nat.mul_0_l, drop_0.
    rewrite take_ge; [done |]. unfold len in *. lia.
  - assert (Hlenc : length c = Z.to_nat n) by (unfold len in *; lia).
    destruct k as [|k]; simpl in Hk.
    + injection Hk as <-. rewrite Nat.mul_0_l, drop_0.
      split; [by rewrite take_app_length' |].
      intros ->. simpl in Hlenc. lia.
    + destruct (IH k c' Hk) as [-> Hne]. split; [| done].
      replace (S k * Z.to_nat n)%nat with (length c + k * Z.to_nat n)%nat by lia.
      by rewrite drop_app_add.
Qed.

(** The number of pieces is [len(s) / n], rounded up. *)
Lemma chunked_count n s cs :
  0 < n → chunked n s cs → Z.of_nat (length cs) = (len s + n - 1) / n.
Proof.
  intros Hn.
  induction 1 as [| c Hc Hlen | c rest cs Hlen Hrest Hcs IH].
  - simpl. unfold len. simpl. rewrite Z.div_small; lia.
  - assert (0 < len c) by (destruct c; [done | unfold len; simpl; lia]).
    replace (len c + n - 1) with ((len c - 1) + 1 * n) by lia.
    rewrite Z.div_add, Z.div_small by lia. simpl. lia.
  - unfold len in *. rewrite length_app.
    replace (Z.of_nat (length c + length rest) + n - 1)
      with ((Z.of_nat (length rest) + n - 1) + 1 * n) by lia.
    rewrite Z.div_add by lia. simpl length. lia.
Qed.

Lemma ceil_mul_ge a n : 0 < n → a ≤ n * ((a + n - 1) / n).
Proof.
  intros Hn. pose proof (Z.div_mod (a + n - 1) n).
  pose proof (Z.mod_pos_bound (a + n - 1) n). lia.
Qed.

Lemma Chunk_chunked s n :
  0 < n ≤ int_max → n * ((len s + n - 1) / n) ≤ int_max →
  ∃ cs, Chunk (S (length s)) s n = Some (Ok cs) ∧ chunked n s cs.
Proof.
  intros Hn Hfin.
  assert (Hok : slice_ok s).
  { unfold slice_ok. pose proof (ceil_mul_ge (len s) n). lia. }
  destruct (Chunk_loop_exact (S (length s)) s n 0 [] Hok Hn) as [Hret _].
  - unfold int_max. lia.
  - pose proof (len_nonneg s). lia.
  - unfold len. lia.
  - destruct Hret as (cs & Hrun & Hcs).
    + by rewrite Z.sub_0_r, Z.add_0_l.
    + exists cs. by rewrite drop_0 in Hcs.
Qed.

End ChunkExact.

(** For a positive size [Chunk] returns exactly when the value of [i]
    after the last iteration, [n * ceil(len(s) / n)], is an [int]; when
    that value exceeds [int_max] the call panics. *)
Theorem Chunk_safe_domain {T} (s : list T) (n : Z) :
  slice_ok s → 0 < n ≤ int_max →
  (n * ((len s + n - 1) / n) ≤ int_max →
     ∃ cs, Chunk (S (length s)) s n = Some (Ok cs))
  ∧ (int_max < n * ((len s + n - 1) / n) →
     Chunk (S (length s)) s n = Some (Panic "slice bounds out of range")).
Proof.
  intros Hok Hn.
  destruct (Chunk_loop_exact (S (length s)) s n 0 [] Hok Hn) as [Hret Hpanic].
  - unfold int_max. lia.
  - pose proof (len_nonneg s). lia.
  - unfold len. lia.
  - rewrite Z.sub_0_r, Z.add_0_l in *. split; [| exact Hpanic].
    intros Hfin. destruct (Hret Hfin) as (cs & Hrun & _). eauto.
Qed.

Lemma Chunk_safe_domain_witness :
  (2 * ((len [1; 2; 3; 4; 5] + 2 - 1) / 2) ≤ int_max →
     ∃ cs, Chunk 6 [1; 2; 3; 4; 5] 2 = Some (Ok cs))
  ∧ (int_max < 2 * ((len [1; 2; 3; 4; 5] + 2 - 1) / 2) →
     Chunk 6 [1; 2; 3; 4; 5] 2 = Some (Panic "slice bounds out of range")).
Proof.
  apply (Chunk_safe_domain [1; 2; 3; 4; 5] 2).
  - vm_compute. discriminate.
  - vm_compute. split; [done | discriminate].
Defined.

(** When [Chunk] returns, the [k]-th chunk is [s[k*n : min((k+1)*n, len(s))]],
    no chunk is empty, and there are [ceil(len(s) / n)] chunks. *)
Theorem Chunk_pieces {T} (s : list T) (n : Z) :
  0 < n ≤ int_max → n * ((len s + n - 1) / n) ≤ int_max →
  ∃ cs, Chunk (S (length s)) s n = Some (Ok cs)
    ∧ Z.of_nat (length cs) = (len s + n - 1) / n
    ∧ ∀ (k : nat) c, cs !! k = Some c →
        c = take (Z.to_nat n) (drop (k * Z.to_nat n) s) ∧ c ≠ [].
Proof.
  intros Hn Hfin. destruct (Chunk_chunked s n Hn Hfin) as (cs & Hrun & Hcs).
  exists cs. split_and!; [done | | ].
  - apply chunked_count; [lia | done].
  - apply chunked_lookup; [lia | done].
Qed.

Lemma Chunk_pieces_witness :
  ∃ cs, Chunk 6 [1; 2; 3; 4; 5] 2 = Some (Ok cs)
    ∧ Z.of_nat (length cs) = (len [1; 2; 3; 4; 5] + 2 - 1) / 2
    ∧ ∀ (k : nat) c, cs !! k = Some c →
        c = take (Z.to_nat 2) (drop (k * Z.to_nat 2) [1; 2; 3; 4; 5]) ∧ c ≠ [].
Proof.
  apply (Chunk_pieces [1; 2; 3; 4; 5] 2).
  - vm_compute. split; [done | discriminate].
  - vm_compute. discriminate.
Defined.

(** [Flatten] undoes [Chunk]: flattening the chunks gives the input back. *)
Theorem Flatten_Chunk {T} (s : list T) (n : Z) :
  0 < n ≤ int_max → n * ((len s + n - 1) / n) ≤ int_max →
  ∃ cs, Chunk (S (length s)) s n = Some (Ok cs) ∧ Flatten cs = s.
Proof.
  intros Hn Hfin. destruct (Chunk_chunked s n Hn Hfin) as (cs & Hrun & Hcs).
  exists cs. split; [done |]. rewrite Flatten_spec. by eapply chunked_concat.
Qed.

Lemma Flatten_Chunk_witness :
  ∃ cs, Chunk 6 [1; 2; 3; 4; 5] 2 = Some (Ok cs) ∧ Flatten cs = [1; 2; 3; 4; 5].
Proof.
  apply (Flatten_Chunk [1; 2; 3; 4; 5] 2).
  - vm_compute. split; [done | discriminate].
  - vm_compute. discriminate.
Defined.

(** ** MinMax: further properties *)

Section MinMaxMore.
Context {T : Type} `{Ordered T}.

Lemma le_antisym (x y : T) : le x y → le y x → x = y.
Proof. unfold le. intros Hxy Hyx. by apply lt_total. Qed.

(** A sequence has one minimum and one maximum. *)
Lemma least_unique (l : list T) (m m' : T) :
  m ∈ l → (∀ e, e ∈ l → le m e) → m' ∈ l → (∀ e, e ∈ l → le m' e) → m = m'.
Proof. intros Hm Hle Hm' Hle'. apply le_antisym; auto. Qed.

Lemma greatest_unique (l : list T) (m m' : T) :
  m ∈ l → (∀ e, e ∈ l → le e m) → m' ∈ l → (∀ e, e ∈ l → le e m') → m = m'.
Proof. intros Hm Hle Hm' Hle'. apply le_antisym; auto. Qed.

Lemma Min_characterised (x0 : T) (rest : list T) (m : T) :
  m ∈ x0 :: rest → (∀ e, e ∈ x0 :: rest → le m e) →
  slices.Min (x0 :: rest) = Ok m.
Proof.
  intros Hm Hle. unfold slices.Min. f_equal.
  destruct (Min_loop_spec x0 rest) as [Hin Hmin].
  by eapply least_unique.
Qed.

Lemma Max_characterised (x0 : T) (rest : list T) (m : T) :
  m ∈ x0 :: rest → (∀ e, e ∈ x0 :: rest → le e m) →
  slices.Max (x0 :: rest) = Ok m.
Proof.
  intros Hm Hle. unfold slices.Max. f_equal.
  destruct (Max_loop_spec x0 rest) as [Hin Hmax].
  by eapply greatest_unique.
Qed.

Lemma cmp_Compare_neg (x y : T) : cmp_Compare x y < 0 ↔ lt x y = true.
Proof. unfold cmp_Compare. destruct (lt x y), (lt y x); split; (done || lia). Qed.

Lemma cmp_Compare_pos (x y : T) : 0 < cmp_Compare x y ↔ lt y x = true.
Proof.
  unfold cmp_Compare. destruct (lt x y) eqn:Hxy.
  - rewrite (lt_asym _ _ Hxy). split; (done || lia).
  - destruct (lt y x); split; (done || lia).
Qed.

Lemma cmp_Compare_comparator : comparator (cmp_Compare (T:=T)).
Proof.
  split.
  - intros a b. by rewrite cmp_Compare_neg, cmp_Compare_pos.
  - intros a b c Hab Hbc.
    assert (Hba : lt b a = false).
    { destruct (lt b a) eqn:E; [| done]. apply cmp_Compare_pos in E. lia. }
    assert (Hcb : lt c b = false).
    { destruct (lt c b) eqn:E; [| done]. apply cmp_Compare_pos in E. lia. }
    pose proof (le_trans a b c Hba Hcb) as Hca. unfold le in Hca.
    destruct (decide (0 < cmp_Compare a c)) as [Hpos | ?]; [| lia].
    apply cmp_Compare_pos in Hpos. congruence.
Qed.

End MinMaxMore.

(** The result of [MinMax] depends only on which elements the sequence
    holds, not on their order. *)
Theorem MinMax_permutation {T} `{Ordered T} (s s' : list T) :
  s ≡ₚ s' → MinMax s = MinMax s'.
Proof.
  intros Hperm.
  destruct s as [|x0 rest].
  { apply Permutation_nil_l in Hperm as ->. done. }
  destruct s' as [|y0 rest'].
  { by apply Permutation_nil_r in Hperm. }
  destruct (Min_loop_spec y0 rest') as [Hmin_in Hmin].
  destruct (Max_loop_spec y0 rest') as [Hmax_in Hmax].
  unfold MinMax at 1.
  rewrite (Min_characterised x0 rest (foldl (fun m xi => go_min m xi) y0 rest')).
  - rewrite (Max_characterised x0 rest (foldl (fun m xi => go_max m xi) y0 rest')).
    + done.
    + by rewrite Hperm.
    + intros e He. apply Hmax. by rewrite <- Hperm.
  - by rewrite Hperm.
  - intros e He. apply Hmin. by rewrite <- Hperm.
Qed.

Lemma MinMax_permutation_witness : MinMax [5; 2; 9; 1] = MinMax [2; 5; 9; 1].
Proof. apply (MinMax_permutation [5; 2; 9; 1] [2; 5; 9; 1]). apply perm_swap. Defined.

(** [MinMax] of a concatenation combines the results of the parts: the
    smaller of the two minima and the larger of the two maxima. *)
Theorem MinMax_app {T} `{Ordered T} (s t : list T) :
  s ≠ [] → t ≠ [] →
  ∃ a b c d, MinMax s = Ok (a, b) ∧ MinMax t = Ok (c, d)
    ∧ MinMax (s ++ t) = Ok (go_min a c, go_max b d).
Proof.
  intros Hs Ht.
  destruct s as [|x0 rest]; [done |]. destruct t as [|y0 rest']; [done |].
  destruct (Min_loop_spec x0 rest) as [Ha_in Ha].
  destruct (Max_loop_spec x0 rest) as [Hb_in Hb].
  destruct (Min_loop_spec y0 rest') as [Hc_in Hc].
  destruct (Max_loop_spec y0 rest') as [Hd_in Hd].
  cbn zeta in *.
  set (a := foldl (fun m xi => go_min m xi) x0 rest) in *.
  set (b := foldl (fun m xi => go_max m xi) x0 rest) in *.
  set (c := foldl (fun m xi => go_min m xi) y0 rest') in *.
  set (d := foldl (fun m xi => go_max m xi) y0 rest') in *.
  exists a, b, c, d. split_and!; [done | done |].
  unfold MinMax. rewrite <- app_comm_cons.
  destruct (go_min_spec a c) as (Hsel_min & Hmin_a & Hmin_c).
  destruct (go_max_spec b d) as (Hsel_max & Hmax_b & Hmax_d).
  assert (Hmem : ∀ e, e ∈ x0 :: rest ++ y0 :: rest'
                      ↔ e ∈ x0 :: rest ∨ e ∈ y0 :: rest').
  { intros e. rewrite app_comm_cons. apply elem_of_app. }
  rewrite (Min_characterised x0 (rest ++ y0 :: rest') (go_min a c)).
  - rewrite (Max_characterised x0 (rest ++ y0 :: rest') (go_max b d)); [done | |].
    + apply Hmem. destruct Hsel_max as [-> | ->]; [by left | by right].
    + intros e [He | He]%Hmem.
      * apply le_trans with b; [by apply Hb | done].
      * apply le_trans with d; [by apply Hd | done].
  - apply Hmem. destruct Hsel_min as [-> | ->]; [by left | by right].
  - intros e [He | He]%Hmem.
    + apply le_trans with a; [done | by apply Ha].
    + apply le_trans with c; [done | by apply Hc].
Qed.

Lemma MinMax_app_witness :
  ∃ a b c d, MinMax [5; 2] = Ok (a, b) ∧ MinMax [9; 1] = Ok (c, d)
    ∧ MinMax ([5; 2] ++ [9; 1]) = Ok (go_min a c, go_max b d).
Proof. apply (MinMax_app [5; 2] [9; 1]); discriminate. Defined.

(** On a non-empty sequence [MinMax] is [MinMaxFunc] with [cmp.Compare],
    and [cmp.Compare] follows the contract of the comparison function. *)
Theorem MinMax_is_MinMaxFunc_Compare {T} `{Ordered T} (s : list T) :
  s ≠ [] →
  MinMax s = MinMaxFunc s cmp_Compare ∧ comparator (cmp_Compare (T:=T)).
Proof.
  intros Hs. split; [| apply cmp_Compare_comparator].
  destruct s as [|x0 rest]; [done |].
  unfold MinMax, MinMaxFunc, slices.Min, slices.Max, slices.MinFunc,
    slices.MaxFunc.
  assert (Hmin : foldl (fun m xi => go_min m xi) x0 rest
    = foldl (fun m xi => if bool_decide (cmp_Compare xi m < 0) then xi else m)
            x0 rest).
  { clear Hs. generalize x0. induction rest as [|x rest IH]; intros m; [done |].
    cbn [foldl]. rewrite <- IH. f_equal. unfold go_min.
    destruct (lt x m) eqn:Hlt.
    - rewrite bool_decide_eq_true_2; [done | by apply cmp_Compare_neg].
    - rewrite bool_decide_eq_false_2; [done |].
      rewrite cmp_Compare_neg. congruence. }
  assert (Hmax : foldl (fun m xi => go_max m xi) x0 rest
    = foldl (fun m xi => if bool_decide (0 < cmp_Compare xi m) then xi else m)
            x0 rest).
  { clear Hs Hmin. generalize x0.
    induction rest as [|x rest IH]; intros m; [done |].
    cbn [foldl]. rewrite <- IH. f_equal. unfold go_max.
    destruct (lt m x) eqn:Hlt.
    - rewrite bool_decide_eq_true_2; [done | by apply cmp_Compare_pos].
    - rewrite bool_decide_eq_false_2; [done |].
      rewrite cmp_Compare_pos. congruence. }
  by rewrite Hmin, Hmax.
Qed.

Lemma MinMax_is_MinMaxFunc_Compare_witness :
  MinMax [5; 2; 9; 1] = MinMaxFunc [5; 2; 9; 1] cmp_Compare
  ∧ comparator (cmp_Compare (T:=Z)).
Proof. apply (MinMax_is_MinMaxFunc_Compare [5; 2; 9; 1]). discriminate. Defined.

(** Whatever the comparison function does, [MinMaxFunc] panics only on
    the empty sequence, and the two values it returns are elements of the
    sequence. *)
Theorem MinMaxFunc_selects {T} (s : list T) (less : T → T → Z) :
  match MinMaxFunc s less with
  | Ok (min, max) => s ≠ [] ∧ min ∈ s ∧ max ∈ s
  | Panic _ => s = []
  end.
Proof.
  destruct s as [|x0 rest]; [done |].
  assert (Hsel : ∀ (f : T → T → T), (∀ m x, f m x = m ∨ f m x = x) →
             foldl f x0 rest ∈ x0 :: rest).
  { intros f Hf. induction rest as [|x rest IH] using rev_ind; [by left |].
    rewrite foldl_app, app_comm_cons, elem_of_app. cbn [foldl].
    destruct (Hf (foldl f x0 rest) x) as [-> | ->]; [by left |].
    right. by left. }
  cbn. split_and!; [done | |].
  - apply (Hsel (fun m xi => if bool_decide (less xi m < 0) then xi else m)).
    intros m x. case_bool_decide; auto.
  - apply (Hsel (fun m xi => if bool_decide (0 < less xi m) then xi else m)).
    intros m x. case_bool_decide; auto.
Qed.

(** ** LastIndex: appending an element *)

Section LastIndexMore.
Context {T : Type} `{EqDecision T}.

(** Below [len(s)] the scan of [s ++ t] is the scan of [s]. *)
Lemma LastIndex_loop_app (fuel : nat) (s t : list T) (v : T) (i : Z) :
  slice_ok s → -1 ≤ i < len s →
  LastIndex_loop fuel (s ++ t) v i = LastIndex_loop fuel s v i.
Proof.
  intros Hok. revert i. induction fuel as [|fuel IH]; intros i Hi; [done |].
  cbn [LastIndex_loop]. case_bool_decide as Hpos; [| done].
  assert (Hidx : index (s ++ t) i = index s i).
  { unfold index, len in *. rewrite length_app.
    rewrite !bool_decide_eq_true_2 by lia.
    by rewrite lookup_app_l by lia. }
  rewrite Hidx. destruct (index s i) as [x | msg]; [| done].
  case_bool_decide; [done |].
  rewrite add_id
    by (unfold slice_ok, in_range, int_min, int_max in *; lia).
  apply IH. lia.
Qed.

Lemma LastIndex_loop_step (fuel : nat) (s : list T) (v : T) (i : Z) :
  LastIndex_loop (S fuel) s v i
  = if bool_decide (0 ≤ i) then
      match index s i with
      | Panic msg => Some (Panic msg)
      | Ok x =>
        if bool_decide (x = v) then Some (Ok (i, true))
        else LastIndex_loop fuel s v (add i (-1))
      end
    else Some (Ok (-1, false)).
Proof. reflexivity. Qed.

End LastIndexMore.

(** After [append(s, x)]: when [x] is the value looked for, [LastIndex]
    finds it at the new last position [len(s)]; otherwise the answer is
    the one for [s]. *)
Theorem LastIndex_snoc {T} `{EqDecision T} (s : list T) (x v : T) :
  slice_ok (s ++ [x]) →
  LastIndex (s ++ [x]) v
  = if bool_decide (x = v) then Some (Ok (len s, true)) else LastIndex s v.
Proof.
  intros Hok.
  assert (Hlen : length (s ++ [x]) = S (length s))
    by (rewrite length_app; simpl; lia).
  assert (Hoks : slice_ok s) by (unfold slice_ok, len in *; lia).
  pose proof (len_nonneg s) as Hnn.
  assert (H1 : add (len (s ++ [x])) (-1) = len s).
  { rewrite add_id; unfold slice_ok, len, in_range, int_min, int_max in *; lia. }
  assert (H2 : add (len s) (-1) = len s - 1).
  { rewrite add_id; unfold slice_ok, len, in_range, int_min, int_max in *; lia. }
  unfold LastIndex. rewrite H1, H2, Hlen.
  rewrite (LastIndex_loop_step (S (length s))).
  rewrite bool_decide_eq_true_2 by done.
  unfold len at 1. rewrite (index_lookup _ _ x) by by apply list_lookup_middle.
  case_bool_decide; [done |].
  fold (len s). rewrite H2.
  apply LastIndex_loop_app; [done | lia].
Qed.

Lemma LastIndex_snoc_witness :
  LastIndex ([7; 8; 7] ++ [9]) 7
  = if bool_decide (9 = 7) then Some (Ok (len [7; 8; 7], true))
    else LastIndex [7; 8; 7] 7.
Proof. apply (LastIndex_snoc [7; 8; 7] 9 7). vm_compute. discriminate. Defined.
